(** * StreamFlow: queue state machine, response cache, aggregator and store

    A shallow embedding of the parts of StreamFlow that carry invariants:
    - [MusicPlayer] (src/server.js): the playback queue, its cursor, the
      shuffle/repeat policy and the volume clamp;
    - [APIManager] (src/api-manager.js): the TTL response cache and the
      round-robin merge of the per-provider search results;
    - [DatabaseManager] (src/server/database.js): playlists, search history
      and the download/offline-blob pair kept in IndexedDB.

    JavaScript values are modelled as the code uses them: array indices and
    millisecond clocks are integers ([Z]), volumes are IEEE-754 doubles
    ([spec_float] at precision 53), objects used as records are finite maps
    from property names to values, and [undefined] is written out wherever
    the code can produce it. *)

From Stdlib Require Import ZArith Lia.
From Stdlib Require Import Floats.SpecFloat.
From stdpp Require Import gmap strings list sorting.

Local Open Scope Z_scope.

(** ** Tracks *)

(** The track objects built by the search functions of src/api-manager.js. *)
Record Track := mkTrack {
  track_id : string;
  title : string;
  artist : string;
  thumbnail : option string;
  duration : Z;
  source : string;
  url : string
}.

#[global] Instance Track_eq_dec : EqDecision Track.
Proof. solve_decision. Defined.

(** ** JavaScript arrays *)

Module JSArray.
Section Ops.
Context {A : Type}.

(** [Array.prototype.splice] clamps its start: a negative start counts
    from the end, a start past the end becomes the length. *)
Definition actualStart (start : Z) (len : nat) : nat :=
  if start <? 0 then Z.to_nat (Z.max (Z.of_nat len + start) 0)
  else Z.to_nat (Z.min start (Z.of_nat len)).

Definition actualDeleteCount (deleteCount : Z) (len s : nat) : nat :=
  Z.to_nat (Z.min (Z.max deleteCount 0) (Z.of_nat len - Z.of_nat s)).

(** [splice l start deleteCount items] is the pair of the array after
    [l.splice(start, deleteCount, ...items)] and the array it returns
    (the removed elements). *)
Definition splice (l : list A) (start deleteCount : Z) (items : list A)
  : list A * list A :=
  let s := actualStart start (length l) in
  let dc := actualDeleteCount deleteCount (length l) s in
  (take s l ++ items ++ drop (s + dc)%nat l, take dc (drop s l)).

(** [l.slice(0, end)]: a negative end counts from the end of the array. *)
Definition slice0 (l : list A) (end_ : Z) : list A :=
  take (actualStart end_ (length l)) l.

(** [l[i]] for an integer [i]; [None] is [undefined]. *)
Definition get (l : list A) (i : Z) : option A :=
  if i <? 0 then None else l !! Z.to_nat i.
End Ops.
End JSArray.

(** ** The music player (src/server.js) *)

Module MusicPlayer.

(** A queue slot holds whatever was pushed: a track, or [undefined]
    ([None]) when [reorderQueue] re-inserts the result of an empty splice. *)
Definition slot := option Track.

(** The fields of [MusicPlayer] that the queue and volume logic read or
    write. [hasSrc] is the truthiness of [this.audio.src]. *)
Record t := mk {
  queue : list slot;
  queueIndex : Z;
  shuffle : bool;
  repeatMode : string;
  volume : spec_float;
  hasSrc : bool
}.

Definition set_queue (p : t) (q : list slot) : t :=
  mk q (queueIndex p) (shuffle p) (repeatMode p) (volume p) (hasSrc p).
Definition set_queueIndex (p : t) (i : Z) : t :=
  mk (queue p) i (shuffle p) (repeatMode p) (volume p) (hasSrc p).
Definition set_volume (p : t) (v : spec_float) : t :=
  mk (queue p) (queueIndex p) (shuffle p) (repeatMode p) v (hasSrc p).

(** Double-precision constants. *)
Definition prec : Z := 53.
Definition emax : Z := 1024.
Definition f_zero : spec_float := S754_zero false.
Definition f_one : spec_float := S754_finite false 4503599627370496 (-52).

(** The state set up by the constructor. *)
Definition initial : t :=
  mk [] (-1) false "none" f_one false.

Definition len (p : t) : Z := Z.of_nat (length (queue p)).

(** *** Queue mutations *)

Definition addToQueue (p : t) (track : slot) : t :=
  set_queue p (queue p ++ [track]).

(** What [playTrack(track, true)] does to the queue once the stream URL
    is resolved: the track is appended and becomes the current one. *)
Definition playTrack_enqueue (p : t) (track : slot) : t :=
  let p1 := addToQueue p track in
  set_queueIndex p1 (len p1 - 1).

Definition removeFromQueue (p : t) (index : Z) : t :=
  let p1 := set_queue p (fst (JSArray.splice (queue p) index 1 [])) in
  if index <? queueIndex p1 then set_queueIndex p1 (queueIndex p1 - 1)
  else p1.

Definition clearQueue (p : t) : t :=
  set_queueIndex (set_queue p []) (-1).

(** [const [removed] = ...]: the first removed element, [undefined] when
    the splice removed nothing. *)
Definition first_removed (removed : list slot) : slot :=
  match removed with
  | [] => None
  | x :: _ => x
  end.

Definition reorderQueue (p : t) (fromIndex toIndex : Z) : t :=
  let '(q1, rem) := JSArray.splice (queue p) fromIndex 1 [] in
  let removed := first_removed rem in
  let q2 := fst (JSArray.splice q1 toIndex 0 [removed]) in
  let p2 := set_queue p q2 in
  if fromIndex =? queueIndex p2 then set_queueIndex p2 toIndex
  else if (fromIndex <? queueIndex p2) && (toIndex >=? queueIndex p2)
       then set_queueIndex p2 (queueIndex p2 - 1)
  else if (fromIndex >? queueIndex p2) && (toIndex <=? queueIndex p2)
       then set_queueIndex p2 (queueIndex p2 + 1)
  else p2.

(** *** Sequences of queue mutations *)

Inductive QueueOp :=
| OpAdd (track : Track)
| OpRemove (index : Z)
| OpReorder (fromIndex toIndex : Z).

Definition apply_op (p : t) (op : QueueOp) : t :=
  match op with
  | OpAdd track => addToQueue p (Some track)
  | OpRemove i => removeFromQueue p i
  | OpReorder i j => reorderQueue p i j
  end.

Definition in_range (p : t) (i : Z) : bool := (0 <=? i) && (i <? len p).

(** The indices of an operation address existing queue entries. *)
Definition op_in_range (p : t) (op : QueueOp) : bool :=
  match op with
  | OpAdd _ => true
  | OpRemove i => in_range p i
  | OpReorder i j => in_range p i && in_range p j
  end.

(** The states reached after each operation of a sequence, in order. *)
Fixpoint trace (p : t) (ops : list QueueOp) : list t :=
  match ops with
  | [] => []
  | op :: ops' => let p' := apply_op p op in p' :: trace p' ops'
  end.

Fixpoint ops_in_range (p : t) (ops : list QueueOp) : bool :=
  match ops with
  | [] => true
  | op :: ops' => op_in_range p op && ops_in_range (apply_op p op) ops'
  end.

(** The queue invariant as the specification words it. *)
Definition queue_invariant (p : t) : Prop :=
  (queueIndex p = -1 <-> queue p = []) /\
  (queue p <> [] -> 0 <= queueIndex p < len p).

(** What the three mutations do maintain: the cursor is [-1] or a valid
    index, and it is [-1] on the empty queue. *)
Definition cursor_valid (p : t) : Prop :=
  (queue p = [] -> queueIndex p = -1) /\
  (queueIndex p = -1 \/ 0 <= queueIndex p < len p).


(** *** What plays next *)

(** The calls the queue logic makes on the playback side. [PlayTrack] is
    [playTrack(track, false)], which loads and starts the given queue
    entry and leaves [queue] and [queueIndex] alone. *)
Inductive Action :=
| SeekTo (percent : Z)
| AudioPlay
| PlayTrack (track : slot).

Definition play (p : t) : list Action :=
  if hasSrc p then [AudioPlay]
  else if 0 <? len p then [PlayTrack (mjoin (JSArray.get (queue p) 0))]
  else [].

(** The [do ... while (randomIndex === this.queueIndex)] loop of
    [playRandom]. [draws] are the successive values of
    [Math.floor(Math.random() * this.queue.length)]; the loop ends at the
    first draw that differs from the cursor, and [None] says that the
    given draws ran out before it ended. *)
Fixpoint draw_until (draws : list Z) (current : Z) : option Z :=
  match draws with
  | [] => None
  | r :: rest => if r =? current then draw_until rest current else Some r
  end.

Definition playRandom (p : t) (draws : list Z) : option (t * list Action) :=
  if len p <=? 1 then Some (p, [])
  else
    match draw_until draws (queueIndex p) with
    | None => None
    | Some randomIndex =>
        Some (set_queueIndex p randomIndex,
              [PlayTrack (mjoin (JSArray.get (queue p) randomIndex))])
    end.

Definition playNext (p : t) (draws : list Z) : option (t * list Action) :=
  if shuffle p then playRandom p draws
  else if queueIndex p <? len p - 1 then
    let p' := set_queueIndex p (queueIndex p + 1) in
    Some (p', [PlayTrack (mjoin (JSArray.get (queue p') (queueIndex p')))])
  else if String.eqb (repeatMode p) "all" then
    let p' := set_queueIndex p 0 in
    Some (p', [PlayTrack (mjoin (JSArray.get (queue p') 0))])
  else Some (p, []).

Definition handleTrackEnd (p : t) (draws : list Z) : option (t * list Action) :=
  if String.eqb (repeatMode p) "one" then Some (p, SeekTo 0 :: play p)
  else playNext p draws.

(** Every run of [n] draws of [Math.floor(Math.random() * length)]: with
    a uniform [Math.random] all of them are equally likely. *)
Fixpoint all_draws (n : nat) (length : Z) : list (list Z) :=
  match n with
  | O => [[]]
  | S n' => r ← seqZ 0 length; (fun draws => r :: draws) <$> all_draws n' length
  end.

(** The number of runs among [runs] on which the loop of [playRandom]
    ends at [j]. *)
Definition runs_to (current j : Z) (runs : list (list Z)) : nat :=
  length (filter (fun draws => draw_until draws current = Some j) runs).

(** Whether [playNext] on [draws] leaves the cursor at [j]. *)
Definition lands_on (p : t) (j : Z) (draws : list Z) : bool :=
  match playNext p draws with
  | Some (p', _) => queueIndex p' =? j
  | None => false
  end.

(** The number of runs of [n] draws on which [playNext] leaves the cursor
    at [j]. *)
Definition runs_landing_on (p : t) (j : Z) (n : nat) : nat :=
  length (filter (fun draws => lands_on p j draws = true)
            (all_draws n (len p))).

(** *** Volume *)

Definition is_nan (x : spec_float) : bool :=
  match x with
  | S754_nan => true
  | _ => false
  end.

Definition is_infinity (x : spec_float) : bool :=
  match x with
  | S754_infinity _ => true
  | _ => false
  end.

(** [Math.min] and [Math.max] on two numbers: NaN if either argument is
    NaN, and [-0] counts as smaller than [+0]. *)
Definition Math_min (a b : spec_float) : spec_float :=
  match SFcompare a b with
  | None => S754_nan
  | Some Lt => a
  | Some Gt => b
  | Some Eq => match a with S754_zero true => a | _ => b end
  end.

Definition Math_max (a b : spec_float) : spec_float :=
  match SFcompare a b with
  | None => S754_nan
  | Some Lt => b
  | Some Gt => a
  | Some Eq => match a with S754_zero false => a | _ => b end
  end.

Definition setVolume (p : t) (v : spec_float) : t :=
  set_volume p (Math_max f_zero (Math_min f_one v)).

Definition adjustVolume (p : t) (delta : spec_float) : t :=
  setVolume p (SFadd prec emax (volume p) delta).

(** [v] clamped into [0, 1], as the specification words it. *)
Definition clamp01 (v : spec_float) : spec_float :=
  if SFltb v f_zero then f_zero
  else if SFltb f_one v then f_one
  else v.

Definition in_unit_interval (v : spec_float) : bool :=
  SFleb f_zero v && SFleb v f_one.

Inductive VolumeOp :=
| OpSetVolume (v : spec_float)
| OpAdjustVolume (delta : spec_float).

Definition apply_volume_op (p : t) (op : VolumeOp) : t :=
  match op with
  | OpSetVolume v => setVolume p v
  | OpAdjustVolume d => adjustVolume p d
  end.

Definition volume_arg (op : VolumeOp) : spec_float :=
  match op with
  | OpSetVolume v => v
  | OpAdjustVolume d => d
  end.

(** The states reached after each volume call of a sequence. *)
Fixpoint volume_trace (p : t) (ops : list VolumeOp) : list t :=
  match ops with
  | [] => []
  | op :: ops' =>
      let p' := apply_volume_op p op in p' :: volume_trace p' ops'
  end.

End MusicPlayer.

(** ** The API manager (src/api-manager.js) *)

Module APIManager.

(** What a rejected promise carries. *)
Inductive JSError :=
| NetworkError (message : string)
| HttpError (status : Z)
| SyntaxError
| TypeError.

(** The payloads of the three search endpoints, with the properties the
    search functions read. *)
Record YouTubeItem := mkYouTubeItem {
  yt_id : string;
  yt_title : string;
  yt_channel : string;
  yt_thumbnail : option string;
  yt_duration : Z;
  yt_url : string
}.

Record SoundCloudUser := mkSoundCloudUser {
  username : string;
  avatar_url : option string
}.

Record SoundCloudTrack := mkSoundCloudTrack {
  sc_id : string;
  sc_title : string;
  sc_user : option SoundCloudUser;
  sc_artwork_url : option string;
  sc_duration : Z;
  sc_permalink_url : string
}.

Record AudiusTrack := mkAudiusTrack {
  au_id : string;
  au_title : string;
  au_user_name : option string;
  au_artwork : option (option string);
  au_duration : Z
}.

(** A parsed response body. [JOther] is any JSON in which the property a
    search function reads ([items], [collection], [data]) is missing. *)
Inductive Json :=
| JYouTube (items : list YouTubeItem)
| JSoundCloud (collection : list SoundCloudTrack)
| JAudius (data : list AudiusTrack)
| JOther (text : string).

(** What the global [fetch] does with one request: it rejects, or it
    resolves to a response with its [ok] flag, its status and its body
    ([None]: [response.json()] rejects). *)
Inductive FetchResult :=
| FetchRejected (message : string)
| FetchResponse (ok : bool) (status : Z) (body : option Json).

Record CacheEntry := mkEntry {
  data : Json;
  timestamp : Z
}.

(** [fetched] is the list of requests handed to [fetch] so far, oldest
    first: the loader has been invoked once per element. *)
Record t := mk {
  baseURL : string;
  cache : gmap string CacheEntry;
  fetched : list (string * string)
}.

Definition set_cache (api : t) (c : gmap string CacheEntry) : t :=
  mk (baseURL api) c (fetched api).
Definition log_fetch (api : t) (url options : string) : t :=
  mk (baseURL api) (cache api) (fetched api ++ [(url, options)]).

Definition new (origin : string) : t := mk origin ∅ [].

(** 5 minutes, in milliseconds. *)
Definition cacheTimeout : Z := 5 * 60 * 1000.

(** The surroundings of one [fetchWithCache] call: [Date.now()] at the
    cache check, the answer of [fetch] should it be called, and
    [Date.now()] when the answer is stored. *)
Record Env := mkEnv {
  now_check : Z;
  response : FetchResult;
  now_store : Z
}.

Definition cacheKey (url options : string) : string :=
  url +:+ "_" +:+ options.

(** The cache check at the head of [fetchWithCache]. *)
Definition cache_hit (api : t) (key : string) (now : Z) : option Json :=
  match cache api !! key with
  | Some cached =>
      if now - timestamp cached <? cacheTimeout then Some (data cached)
      else None
  | None => None
  end.

(** [options] is the text [JSON.stringify(options)]. *)
Definition fetchWithCache (api : t) (url options : string) (env : Env)
  : (JSError + Json) * t :=
  let key := cacheKey url options in
  match cache_hit api key (now_check env) with
  | Some d => (inr d, api)
  | None =>
      let api1 := log_fetch api url options in
      match response env with
      | FetchRejected msg => (inl (NetworkError msg), api1)
      | FetchResponse ok status body =>
          if negb ok then (inl (HttpError status), api1)
          else
            match body with
            | None => (inl SyntaxError, api1)
            | Some d =>
                (inr d,
                 set_cache api1
                   (<[key := mkEntry d (now_store env)]> (cache api1)))
            end
      end
  end.

Definition clearCache (api : t) : t := set_cache api ∅.

(** The loader behind [fetchWithCache] is the [fetch], the test of
    [response.ok] and [response.json()]. This is the error it throws,
    [None] when it gives a value. *)
Definition loader_failure (r : FetchResult) : option JSError :=
  match r with
  | FetchRejected msg => Some (NetworkError msg)
  | FetchResponse false status _ => Some (HttpError status)
  | FetchResponse true _ None => Some SyntaxError
  | FetchResponse true _ (Some _) => None
  end.

(** *** Search *)

Definition youtube_track (item : YouTubeItem) : Track :=
  mkTrack (yt_id item) (yt_title item) (yt_channel item) (yt_thumbnail item)
          (yt_duration item) "youtube" (yt_url item).

(** [a || b] on optional strings: the empty string is falsy too. *)
Definition or_else (a b : option string) : option string :=
  match a with
  | Some s => if String.eqb s "" then b else a
  | None => b
  end.

(** [None]: [track.user] is undefined and reading [username] throws. *)
Definition soundcloud_track (track : SoundCloudTrack) : option Track :=
  match sc_user track with
  | None => None
  | Some user =>
      Some (mkTrack (sc_id track) (sc_title track) (username user)
              (or_else (sc_artwork_url track) (avatar_url user))
              (sc_duration track / 1000) "soundcloud"
              (sc_permalink_url track))
  end.

Definition audius_track (track : AudiusTrack) : option Track :=
  match au_user_name track with
  | None => None
  | Some name =>
      Some (mkTrack (au_id track) (au_title track) name
              (match au_artwork track with Some a => a | None => None end)
              (au_duration track) "audius"
              ("https://audius.co/tracks/" +:+ au_id track))
  end.

(** The [catch] of the search functions: any error becomes [[]]. *)
Definition catch_empty (r : JSError + list Track) : JSError + list Track :=
  match r with
  | inl _ => inr []
  | inr l => inr l
  end.

Definition of_option (o : option (list Track)) : JSError + list Track :=
  match o with
  | Some l => inr l
  | None => inl TypeError
  end.

(** What a provider contributes, given the outcome of its request: the
    tracks mapped from a well-formed answer, and nothing when the request
    failed or the answer could not be mapped. *)
Definition youtube_results (r : JSError + Json) : list Track :=
  match r with
  | inr (JYouTube items) => youtube_track <$> items
  | _ => []
  end.

Definition soundcloud_results (r : JSError + Json) : list Track :=
  match r with
  | inr (JSoundCloud collection) =>
      default [] (mapM soundcloud_track collection)
  | _ => []
  end.

Definition audius_results (r : JSError + Json) : list Track :=
  match r with
  | inr (JAudius data) => default [] (mapM audius_track data)
  | _ => []
  end.

Section Search.
(** The built-in [encodeURIComponent]. *)
Variable encodeURIComponent : string -> string.

Definition youtube_url (api : t) (query : string) : string :=
  baseURL api +:+ "/api/youtube/search?q=" +:+ encodeURIComponent query.
Definition soundcloud_url (api : t) (query : string) : string :=
  baseURL api +:+ "/api/soundcloud/search?q=" +:+ encodeURIComponent query.
Definition audius_url (query : string) : string :=
  "https://api.audius.co/v1/tracks/search?query=" +:+ encodeURIComponent query.

Definition searchYouTube (api : t) (query : string) (env : Env)
  : (JSError + list Track) * t :=
  let '(r, api') := fetchWithCache api (youtube_url api query) "{}" env in
  (catch_empty
     match r with
     | inl e => inl e
     | inr (JYouTube items) => inr (youtube_track <$> items)
     | inr _ => inl TypeError
     end, api').

Definition searchSoundCloud (api : t) (query : string) (env : Env)
  : (JSError + list Track) * t :=
  let '(r, api') := fetchWithCache api (soundcloud_url api query) "{}" env in
  (catch_empty
     match r with
     | inl e => inl e
     | inr (JSoundCloud collection) =>
         of_option (mapM soundcloud_track collection)
     | inr _ => inl TypeError
     end, api').

Definition searchAudius (api : t) (query : string) (env : Env)
  : (JSError + list Track) * t :=
  let '(r, api') := fetchWithCache api (audius_url query) "{}" env in
  (catch_empty
     match r with
     | inl e => inl e
     | inr (JAudius data) => of_option (mapM audius_track data)
     | inr _ => inl TypeError
     end, api').

Record Results := mkResults {
  youtube : list Track;
  soundcloud : list Track;
  audius : list Track
}.

(** One turn of the loop of [mergeResults]: the entries are objects, so
    [results.x[i]] is truthy exactly when [i] is within the array. *)
Definition merge_step (results : Results) (merged : list Track) (i : nat)
  : list Track :=
  merged ++ option_list (youtube results !! i)
         ++ option_list (soundcloud results !! i)
         ++ option_list (audius results !! i).

Definition maxLength (results : Results) : nat :=
  (length (youtube results) `max`
     (length (soundcloud results) `max` length (audius results)))%nat.

Definition mergeResults (results : Results) : list Track :=
  fold_left (merge_step results) (seq 0 (maxLength results)) [].

(** [.then(data => results.x = data)] under [Promise.allSettled]: the
    assignment happens when the promise is fulfilled, a rejection is
    dropped. *)
Definition settled (r : JSError + list Track) : list Track :=
  match r with
  | inl _ => []
  | inr l => l
  end.

Definition wanted (source name : string) : bool :=
  String.eqb source "all" || String.eqb source name.

(** The three provider calls are issued in this order. *)
Definition search (api : t) (query source : string) (ey es ea : Env)
  : (JSError + list Track) * t :=
  let '(y, api1) :=
    if wanted source "youtube" then
      let '(r, a) := searchYouTube api query ey in (settled r, a)
    else ([], api) in
  let '(s, api2) :=
    if wanted source "soundcloud" then
      let '(r, a) := searchSoundCloud api1 query es in (settled r, a)
    else ([], api1) in
  let '(a, api3) :=
    if wanted source "audius" then
      let '(r, a) := searchAudius api2 query ea in (settled r, a)
    else ([], api2) in
  (inr (mergeResults (mkResults y s a)), api3).
End Search.

(** Round-robin interleaving as the specification words it: one round
    takes the next result of every list that still has one, in list
    order, and rounds go on until all lists are exhausted. *)
Fixpoint rounds (n : nat) (lists : list (list Track)) : list Track :=
  match n with
  | O => []
  | S n' => omap head lists ++ rounds n' (tail <$> lists)
  end.

Definition round_robin (lists : list (list Track)) : list Track :=
  rounds (foldr Nat.max O (length <$> lists)) lists.

End APIManager.

(** ** The database manager (src/server/database.js) *)

Module DatabaseManager.

(** The values found in playlist records. *)
Inductive JSValue :=
| JUndefined
| JNull
| JBool (b : bool)
| JNum (n : Z)
| JStr (s : string)
| JTracks (tracks : list Track).

(** A JavaScript object used as a record: property name to value. *)
Abbreviation Obj := (gmap string JSValue).

(** The IndexedDB keys in use: numbers and strings. *)
Abbreviation Key := (Z + string)%type.

Definition to_key (v : JSValue) : option Key :=
  match v with
  | JNum n => Some (inl n)
  | JStr s => Some (inr s)
  | _ => None
  end.

Definition key_value (k : Key) : JSValue :=
  match k with
  | inl n => JNum n
  | inr s => JStr s
  end.

Inductive DOMError :=
| DataError
| ConstraintError
| NotFoundError
| TransactionInactiveError
| QuotaExceededError
| UnknownError.

(** The state of the promise an operation returns, once the events of
    its transaction have been delivered. *)
Inductive Promise (A : Type) :=
| Fulfilled (v : A)
| Rejected (reason : option DOMError)
| Pending.
Arguments Fulfilled {A} v.
Arguments Rejected {A} reason.
Arguments Pending {A}.

Record SearchEntry := mkSearch {
  query : string;
  timestamp : Z
}.

Record Blob := mkBlob {
  size : Z;
  bytes : string
}.

(** [{...track, id: trackId, blob, timestamp}] *)
Record OfflineTrack := mkOfflineTrack {
  ot_track : Track;
  ot_id : string;
  ot_blob : Blob;
  ot_timestamp : Z
}.

(** [{id: trackId, track, size: blob.size, timestamp}] *)
Record Download := mkDownload {
  dl_id : string;
  dl_track : Track;
  dl_size : Z;
  dl_timestamp : Z
}.

(** The object stores the modelled operations touch. [playlists] and
    [searchHistory] have [keyPath: 'id'] with a key generator, whose next
    value is kept beside the store; [offlineTracks] and [downloads] are
    keyed by the [id] of their records. *)
Record t := mk {
  playlists : gmap Key Obj;
  playlistsNext : Z;
  searchHistory : gmap Z SearchEntry;
  searchHistoryNext : Z;
  offlineTracks : gmap string OfflineTrack;
  downloads : gmap string Download
}.

Definition empty : t := mk ∅ 1 ∅ 1 ∅ ∅.

Definition set_playlists (db : t) (m : gmap Key Obj) (next : Z) : t :=
  mk m next (searchHistory db) (searchHistoryNext db)
     (offlineTracks db) (downloads db).
Definition set_searchHistory (db : t) (m : gmap Z SearchEntry) (next : Z) : t :=
  mk (playlists db) (playlistsNext db) m next
     (offlineTracks db) (downloads db).
Definition set_offlineTracks (db : t) (m : gmap string OfflineTrack) : t :=
  mk (playlists db) (playlistsNext db) (searchHistory db)
     (searchHistoryNext db) m (downloads db).
Definition set_downloads (db : t) (m : gmap string Download) : t :=
  mk (playlists db) (playlistsNext db) (searchHistory db)
     (searchHistoryNext db) (offlineTracks db) m.

(** *** Playlists *)

(** A numeric key at or above the generator moves the generator past it. *)
Definition bump (next : Z) (k : Key) : Z :=
  match k with
  | inl n => if next <=? n then n + 1 else next
  | inr _ => next
  end.

(** [store.put(value)] on the playlists store: the key is read at the key
    path [id]; a missing or undefined [id] draws a key from the generator
    and writes it into the record; any other non-key value is a
    [DataError]. *)
Definition put_playlist (db : t) (value : Obj) : Promise Key * t :=
  let generated :=
    let k : Key := inl (playlistsNext db) in
    (Fulfilled k,
     set_playlists db
       (<[k := <["id" := JNum (playlistsNext db)]> value]> (playlists db))
       (playlistsNext db + 1)) in
  match value !! "id" with
  | None => generated
  | Some JUndefined => generated
  | Some v =>
      match to_key v with
      | Some k =>
          (Fulfilled k,
           set_playlists db (<[k := value]> (playlists db))
             (bump (playlistsNext db) k))
      | None => (Rejected (Some DataError), db)
      end
  end.

(** [createPlaylist] builds the record with two readings of the clock and
    hands it to [store.add]. The record has no [id], so its key comes from
    the generator and is not taken: [add] then does what [put] does. *)
Definition createPlaylist (db : t) (name description : string)
    (now1 now2 : Z) : Promise Key * t :=
  put_playlist db
    (<["name" := JStr name]>
       (<["description" := JStr description]>
          (<["tracks" := JTracks []]>
             (<["created" := JNum now1]>
                (<["modified" := JNum now2]> ∅))))).

(** [store.get(id)]: the record, or [undefined] ([None]) when the key is
    absent; a value that is not a key is a [DataError]. *)
Definition getPlaylist (db : t) (id : JSValue) : Promise (option Obj) :=
  match to_key id with
  | Some k => Fulfilled (playlists db !! k)
  | None => Rejected (Some DataError)
  end.

(** [{...playlist, ...updates, modified: Date.now()}]: spreading
    [undefined] adds nothing. *)
Definition merged (playlist : option Obj) (updates : Obj) (now : Z) : Obj :=
  <["modified" := JNum now]> (updates ∪ default ∅ playlist).

(** [updatePlaylist] opens its readwrite transaction first, then awaits
    [getPlaylist], which reads in a transaction of its own, and only then
    calls [store.put(updated)] on the transaction opened first. A
    transaction is active while the task that created it runs and while
    one of its own requests calls back; the code after the [await] runs
    in neither, so the transaction is not active there, [put] throws a
    [TransactionInactiveError] before it looks at its argument, and the
    promise is rejected with it: no request is placed and nothing is
    written. The result comes with the records handed to [store.put]. *)
Definition updatePlaylist (db : t) (id : JSValue) (updates : Obj) (now : Z)
  : Promise Key * t * list Obj :=
  match getPlaylist db id with
  | Fulfilled playlist =>
      let updated := merged playlist updates now in
      (Rejected (Some TransactionInactiveError), db, [updated])
  | Rejected e => (Rejected e, db, [])
  | Pending => (Pending, db, [])
  end.

(** Every record sits under the key found at its key path. *)
Definition keys_inline (db : t) : Prop :=
  forall k r, playlists db !! k = Some r -> r !! "id" = Some (key_value k).

(** *** Search history *)

(** [store.add(searchEntry)] with a generated key. *)
Definition addToSearchHistory (db : t) (q : string) (now : Z)
  : Promise Z * t :=
  let id := searchHistoryNext db in
  match searchHistory db !! id with
  | Some _ => (Rejected (Some ConstraintError), db)
  | None =>
      (Fulfilled id,
       set_searchHistory db (<[id := mkSearch q now]> (searchHistory db))
         (id + 1))
  end.

(** The order of the [timestamp] index: by timestamp, then by primary
    key. *)
Definition index_le (a b : Z * SearchEntry) : Prop :=
  timestamp a.2 < timestamp b.2 \/
  (timestamp a.2 = timestamp b.2 /\ a.1 <= b.1).

#[global] Instance index_le_dec a b : Decision (index_le a b).
Proof. unfold index_le. apply _. Defined.

(** [store.index('timestamp').getAll()] *)
Definition index_getAll (db : t) : list (Z * SearchEntry) :=
  merge_sort index_le (map_to_list (searchHistory db)).

(** One turn of the [forEach] that removes duplicates. *)
Definition dedup_step (acc : gset string * list (Z * SearchEntry))
    (search : Z * SearchEntry) : gset string * list (Z * SearchEntry) :=
  let '(seen, uniqueSearches) := acc in
  if decide (query search.2 ∈ seen) then acc
  else ({[query search.2]} ∪ seen, uniqueSearches ++ [search]).

Definition uniqueSearches (searches : list (Z * SearchEntry))
  : list (Z * SearchEntry) :=
  (fold_left dedup_step (reverse searches) (∅, [])).2.

(** The same loop as a recursive function: an entry is kept when its
    query was not seen before it. *)
Fixpoint keep_first (seen : gset string) (l : list (Z * SearchEntry))
  : list (Z * SearchEntry) :=
  match l with
  | [] => []
  | search :: rest =>
      if decide (query search.2 ∈ seen) then keep_first seen rest
      else search :: keep_first ({[query search.2]} ∪ seen) rest
  end.

(** [limit] is [None] when the argument is left out. *)
Definition getSearchHistory (db : t) (limit : option Z)
  : Promise (list (Z * SearchEntry)) :=
  Fulfilled (JSArray.slice0 (uniqueSearches (index_getAll db))
               (default 10 limit)).

(** *** Downloads *)

(** The requests placed on the [offlineTracks]/[downloads] transaction. *)
Inductive Request :=
| PutOfflineTrack (v : OfflineTrack)
| PutDownload (v : Download)
| DeleteOfflineTrack (k : string)
| DeleteDownload (k : string).

Definition exec (db : t) (r : Request) : t :=
  match r with
  | PutOfflineTrack v =>
      set_offlineTracks db (<[ot_id v := v]> (offlineTracks db))
  | PutDownload v => set_downloads db (<[dl_id v := v]> (downloads db))
  | DeleteOfflineTrack k => set_offlineTracks db (delete k (offlineTracks db))
  | DeleteDownload k => set_downloads db (delete k (downloads db))
  end.

(** Storage failures: [request_fault i] is the error with which the
    [i]-th request of the transaction fails, if it does, and
    [commit_fault] the error with which the commit fails. *)
Record Faults := mkFaults {
  request_fault : nat -> option DOMError;
  commit_fault : option DOMError
}.

Definition no_faults : Faults := mkFaults (fun _ => None) None.

(** What the transaction object is told. *)
Inductive TxEvent :=
| TxComplete
| TxError (e : DOMError)
| TxAbort (e : DOMError).

Fixpoint run_requests (db : t) (i : nat) (reqs : list Request) (f : Faults)
  : DOMError + t :=
  match reqs with
  | [] => inr db
  | r :: rest =>
      match request_fault f i with
      | Some e => inl e
      | None => run_requests (exec db r) (S i) rest f
      end
  end.

(** An IndexedDB transaction over its requests. The requests run in the
    order in which they were placed. A failed request fires an [error]
    event that bubbles to the transaction; no handler here cancels it, so
    the transaction aborts and the writes made in it are undone. A failed
    commit aborts too, with an [abort] event only. Otherwise the writes
    are committed together and [complete] fires. *)
Definition transaction (db : t) (reqs : list Request) (f : Faults)
  : TxEvent * t :=
  match run_requests db 0 reqs f with
  | inl e => (TxError e, db)
  | inr db' =>
      match commit_fault f with
      | Some e => (TxAbort e, db)
      | None => (TxComplete, db')
      end
  end.

(** [transaction.oncomplete = () => resolve(true)] and
    [transaction.onerror = () => reject(transaction.error)]; the [error]
    property is still null while the [error] event is dispatched, and no
    [onabort] handler is installed. *)
Definition settle (ev : TxEvent) : Promise bool :=
  match ev with
  | TxComplete => Fulfilled true
  | TxError _ => Rejected None
  | TxAbort _ => Pending
  end.

Definition saveOfflineTrack (db : t) (track : Track) (blob : Blob)
    (now1 now2 : Z) (f : Faults) : Promise bool * t :=
  let trackId := source track +:+ "_" +:+ track_id track in
  let offlineTrack := mkOfflineTrack track trackId blob now1 in
  let download := mkDownload trackId track (size blob) now2 in
  let '(ev, db') :=
    transaction db [PutOfflineTrack offlineTrack; PutDownload download] f in
  (settle ev, db').

Definition deleteDownload (db : t) (trackId : string) (f : Faults)
  : Promise bool * t :=
  let '(ev, db') :=
    transaction db [DeleteOfflineTrack trackId; DeleteDownload trackId] f in
  (settle ev, db').

End DatabaseManager.

(** ** Sample data *)

Module Sample.
Definition track (name : string) (origin : string) : Track :=
  mkTrack name ("Title " +:+ name) "Artist" None 180 origin
          ("https://example.org/" +:+ name).

Definition t0 : Track := track "t0" "youtube".
Definition t1 : Track := track "t1" "youtube".
Definition t2 : Track := track "t2" "soundcloud".
Definition t3 : Track := track "t3" "audius".

(** The doubles 0.1, -0.1 and 2.5. *)
Definition tenth : spec_float := S754_finite false 7205759403792794 (-56).
Definition minus_tenth : spec_float := S754_finite true 7205759403792794 (-56).
Definition two_and_a_half : spec_float :=
  S754_finite false 5629499534213120 (-51).

(** A cache holding one entry stored at time 1000000. *)
Definition warm_api : APIManager.t :=
  APIManager.mk "http://localhost:3000"
    {[ APIManager.cacheKey "/api/trending" "{}"
       := APIManager.mkEntry (APIManager.JOther "cached") 1000000 ]}
    [("/api/trending", "{}")].

(** The store after searching for "a", "b", "a" and "c", in that order,
    at the given times. *)
Definition searched (ta tb ta' tc : Z) : DatabaseManager.t :=
  let db1 := (DatabaseManager.addToSearchHistory DatabaseManager.empty "a" ta).2 in
  let db2 := (DatabaseManager.addToSearchHistory db1 "b" tb).2 in
  let db3 := (DatabaseManager.addToSearchHistory db2 "a" ta').2 in
  (DatabaseManager.addToSearchHistory db3 "c" tc).2.

Definition queries (r : DatabaseManager.Promise (list (Z * DatabaseManager.SearchEntry)))
  : list string :=
  match r with
  | DatabaseManager.Fulfilled l => (fun s => DatabaseManager.query s.2) <$> l
  | _ => []
  end.

(** A database with the one playlist "Mix", created at time 1000. *)
Definition mix_db : DatabaseManager.t :=
  (DatabaseManager.createPlaylist DatabaseManager.empty "Mix" "For the road"
     1000 1000).2.

Definition mix_record : gmap string DatabaseManager.JSValue :=
  {[ "id" := DatabaseManager.JNum 1;
     "name" := DatabaseManager.JStr "Mix";
     "description" := DatabaseManager.JStr "For the road";
     "tracks" := DatabaseManager.JTracks [];
     "created" := DatabaseManager.JNum 1000;
     "modified" := DatabaseManager.JNum 1000 ]}.

Definition rename : gmap string DatabaseManager.JSValue :=
  {[ "name" := DatabaseManager.JStr "Road trip" ]}.

Definition blob : DatabaseManager.Blob := DatabaseManager.mkBlob 3 "abc".

(** The second request of the transaction fails. *)
Definition second_fails : DatabaseManager.Faults :=
  DatabaseManager.mkFaults
    (fun i => if decide (i = 1%nat) then Some DatabaseManager.QuotaExceededError
              else None)
    None.

(** A player holding [q] with the cursor at [i]. *)
Definition player (q : list Track) (i : Z) : MusicPlayer.t :=
  MusicPlayer.mk (Some <$> q) i false "none" MusicPlayer.f_one true.
End Sample.

(** ** Stream resolution and downloads (src/api-manager.js) *)

Module Streams.
Import APIManager.

(** What these functions throw: an error of the kinds above, or the
    [new Error(message)] of [getStreamURL]. *)
Inductive Failure :=
| Thrown (e : JSError)
| Error (message : string).

(** The body of a stream answer, as [data.url] sees it: [response.json()]
    rejects, or the value is [null] (reading [url] throws), or it is any
    other value, whose [url] may be undefined. *)
Inductive StreamBody :=
| BodyUnparsable
| BodyNull
| BodyValue (url : option string).

(** What [fetch] does with a stream request. No [response.ok] test is
    made, so the status plays no role. *)
Inductive StreamFetch :=
| StreamRejected (message : string)
| StreamResponse (body : StreamBody).

(** The body of the [try] of [getYouTubeStream] and [getAudiusStream]. *)
Definition read_url (r : StreamFetch) : JSError + option string :=
  match r with
  | StreamRejected msg => inl (NetworkError msg)
  | StreamResponse BodyUnparsable => inl SyntaxError
  | StreamResponse BodyNull => inl TypeError
  | StreamResponse (BodyValue url) => inr url
  end.

Definition youtube_stream_url (base videoId : string) : string :=
  base +:+ "/api/youtube/stream/" +:+ videoId.
Definition youtube_embed_url (videoId : string) : string :=
  "https://www.youtube.com/embed/" +:+ videoId +:+ "?autoplay=1".
Definition audius_stream_url (trackId : string) : string :=
  "https://api.audius.co/v1/tracks/" +:+ trackId +:+ "/stream".

(** Each function gives its result and the URLs it handed to [fetch]. *)
Definition getYouTubeStream (base videoId : string) (r : StreamFetch)
  : (Failure + option string) * list string :=
  (match read_url r with
   | inr url => inr url
   | inl _ => inr (Some (youtube_embed_url videoId))
   end, [youtube_stream_url base videoId]).

Definition getSoundCloudStream (trackUrl : string)
  : (Failure + option string) * list string :=
  (inr (Some trackUrl), []).

Definition getAudiusStream (trackId : string) (r : StreamFetch)
  : (Failure + option string) * list string :=
  (match read_url r with
   | inr url => inr url
   | inl e => inl (Thrown e)
   end, [audius_stream_url trackId]).

(** [track] is [None] for [undefined], on which [track.source] throws. *)
Definition getStreamURL (base : string) (track : option Track) (r : StreamFetch)
  : (Failure + option string) * list string :=
  match track with
  | None => (inl (Thrown TypeError), [])
  | Some tr =>
      if String.eqb (source tr) "youtube" then
        getYouTubeStream base (track_id tr) r
      else if String.eqb (source tr) "soundcloud" then
        getSoundCloudStream (url tr)
      else if String.eqb (source tr) "audius" then
        getAudiusStream (track_id tr) r
      else (inl (Error "Unknown source"), [])
  end.

(** What [fetch(streamUrl)] and [response.blob()] give to
    [downloadTrack]: the fetch rejects, or it resolves and the blob is
    read ([None]: [blob()] rejects). *)
Inductive BlobFetch :=
| BlobRejected (message : string)
| BlobResponse (blob : option DatabaseManager.Blob).

(** [streamUrl] as the argument of [fetch]: [undefined] is turned into
    the text "undefined". *)
Definition as_url (streamUrl : option string) : string :=
  default "undefined" streamUrl.

(** [downloadTrack]: every failure is caught and gives [false]. The
    promise of [saveOfflineTrack] is awaited, so [downloadTrack] stays
    pending when that one does. The result comes with the database and
    the URLs fetched. *)
Definition downloadTrack (base : string) (db : DatabaseManager.t)
    (track : Track) (stream : StreamFetch) (download : BlobFetch)
    (now1 now2 : Z) (f : DatabaseManager.Faults)
  : DatabaseManager.Promise bool * DatabaseManager.t * list string :=
  let '(resolved, requests) := getStreamURL base (Some track) stream in
  match resolved with
  | inl _ => (DatabaseManager.Fulfilled false, db, requests)
  | inr streamUrl =>
      let requests' := requests ++ [as_url streamUrl] in
      match download with
      | BlobRejected _ => (DatabaseManager.Fulfilled false, db, requests')
      | BlobResponse None => (DatabaseManager.Fulfilled false, db, requests')
      | BlobResponse (Some blob) =>
          match DatabaseManager.saveOfflineTrack db track blob now1 now2 f with
          | (DatabaseManager.Fulfilled _, db') =>
              (DatabaseManager.Fulfilled true, db', requests')
          | (DatabaseManager.Rejected _, db') =>
              (DatabaseManager.Fulfilled false, db', requests')
          | (DatabaseManager.Pending, db') =>
              (DatabaseManager.Pending, db', requests')
          end
      end
  end.

End Streams.

(** ** More of the music player (src/server.js) *)

Module PlayerControls.
Import MusicPlayer.

Definition set_shuffle (p : t) (b : bool) : t :=
  mk (queue p) (queueIndex p) b (repeatMode p) (volume p) (hasSrc p).
Definition set_repeatMode (p : t) (mode : string) : t :=
  mk (queue p) (queueIndex p) (shuffle p) mode (volume p) (hasSrc p).
Definition set_hasSrc (p : t) (b : bool) : t :=
  mk (queue p) (queueIndex p) (shuffle p) (repeatMode p) (volume p) b.

(** The double 3. *)
Definition f_three : spec_float := S754_finite false 6755399441055744 (-51).

(** [currentTime] is [this.currentTime], the position in the current
    track in seconds. *)
Definition playPrevious (p : t) (currentTime : spec_float) : t * list Action :=
  if SFltb f_three currentTime then (p, [SeekTo 0])
  else if queueIndex p >? 0 then
    let p' := set_queueIndex p (queueIndex p - 1) in
    (p', [PlayTrack (mjoin (JSArray.get (queue p') (queueIndex p')))])
  else (p, []).

Definition toggleShuffle (p : t) : t := set_shuffle p (negb (shuffle p)).
Definition setShuffle (p : t) (enabled : bool) : t := set_shuffle p enabled.
Definition setRepeat (p : t) (mode : string) : t := set_repeatMode p mode.

Definition modes : list string := ["none"; "one"; "all"].

(** [modes.indexOf(mode)]: [-1] when [mode] is none of them. *)
Definition indexOf (l : list string) (mode : string) : Z :=
  match list_find (fun m => m = mode) l with
  | Some (i, _) => Z.of_nat i
  | None => -1
  end.

(** [modes[(currentIndex + 1) % modes.length]]; the index is 0, 1 or 2,
    so the entry is there. *)
Definition toggleRepeat (p : t) : t :=
  let currentIndex := indexOf modes (repeatMode p) in
  let next := Z.rem (currentIndex + 1) (Z.of_nat (length modes)) in
  set_repeatMode p (default (repeatMode p) (JSArray.get modes next)).

(** [playTrack(track, addToQueue)], as far as the player state goes.
    [stream] is what [getStreamURL(track)] gave: when it threw, the
    [catch] is all that runs. [srcAfter] is the truthiness of
    [this.audio.src] after the assignment of the stream URL. What follows
    the queue update (starting playback, the play history) does not
    touch these fields. *)
Definition playTrack (p : t) (track : slot) (addToQueue_ : bool)
    (stream : Streams.Failure + option string) (srcAfter : bool) : t :=
  match stream with
  | inl _ => p
  | inr _ =>
      let p1 := set_hasSrc p srcAfter in
      if addToQueue_ then
        let p2 := addToQueue p1 track in
        set_queueIndex p2 (len p2 - 1)
      else p1
  end.

(** What a move through the queue leaves behind: the same queue, and
    either the state as it was with nothing played (at most a seek), or
    the cursor on a track of the queue and that track played. *)
Definition moved_within (p p' : t) (acts : list Action) : Prop :=
  queue p' = queue p /\
  ((p' = p /\ (acts = [] \/ acts = [SeekTo 0])) \/
   (0 <= queueIndex p' < len p' /\
    exists track : Track,
      JSArray.get (queue p') (queueIndex p') = Some (Some track) /\
      acts = [PlayTrack (Some track)])).

(** [this.queue.some(t => t.id === track.id && t.source === track.source)]:
    reading [id] of an undefined entry throws. *)
Definition same_track (a b : Track) : bool :=
  String.eqb (track_id a) (track_id b) && String.eqb (source a) (source b).

Fixpoint some_same (q : list slot) (track : Track) : APIManager.JSError + bool :=
  match q with
  | [] => inr false
  | None :: _ => inl APIManager.TypeError
  | Some entry :: rest =>
      if same_track entry track then inr true else some_same rest track
  end.

Definition isTrackInQueue (p : t) (track : Track) : APIManager.JSError + bool :=
  some_same (queue p) track.

End PlayerControls.

(** ** Preferences (src/public/app.js) *)

Module App.
Import MusicPlayer.

(** The application object, as far as preferences go. *)
Record t := mk {
  theme : string;
  player : MusicPlayer.t
}.

(** The value of [JSON.parse(JSON.stringify(preferences))]: a number
    comes back as it was, except that NaN and the infinities are written
    as [null] ([None]) and [-0] is written as [0]. *)
Record Preferences := mkPreferences {
  pref_theme : string;
  pref_volume : option spec_float;
  pref_shuffle : bool;
  pref_repeat : string
}.

Definition json_number (v : spec_float) : option spec_float :=
  match v with
  | S754_nan => None
  | S754_infinity _ => None
  | S754_zero _ => Some (S754_zero false)
  | S754_finite _ _ _ => Some v
  end.

(** The item written by [savePreferences], as [loadPreferences] parses
    it. *)
Definition savePreferences (app : t) : Preferences :=
  mkPreferences (theme app) (json_number (volume (player app)))
    (shuffle (player app)) (repeatMode (player app)).

(** [prefs.volume || 1]: [null], [0] and NaN are falsy. *)
Definition volume_or_one (v : option spec_float) : spec_float :=
  match v with
  | None => f_one
  | Some (S754_zero _) => f_one
  | Some S754_nan => f_one
  | Some x => x
  end.

(** [s || fallback] on strings: the empty string is falsy. *)
Definition string_or (s fallback : string) : string :=
  if String.eqb s "" then fallback else s.

(** [stored] is [None] when [localStorage] has no item [preferences]. *)
Definition loadPreferences (app : t) (stored : option Preferences) : t :=
  match stored with
  | None => app
  | Some prefs =>
      let p1 := setVolume (player app) (volume_or_one (pref_volume prefs)) in
      let p2 := PlayerControls.setShuffle p1 (pref_shuffle prefs || false) in
      let p3 := PlayerControls.setRepeat p2 (string_or (pref_repeat prefs) "none") in
      mk (string_or (pref_theme prefs) "auto") p3
  end.

End App.

(** ** Trending (src/api-manager.js) *)

Module Trending.
Import APIManager.
Section Shuffle.
Context {A : Type}.

(** [[l[i], l[j]] = [l[j], l[i]]]: both entries are read, then [l[i]]
    and [l[j]] are written in this order. Both indices are within the
    array wherever [shuffleArray] uses it. *)
Definition swap (l : list A) (i j : nat) : option (list A) :=
  a ← l !! i; b ← l !! j; Some (<[j := a]> (<[i := b]> l)).

(** The loop of [shuffleArray] from index [i] down to 1. [draws] are the
    successive values of [Math.floor(Math.random() * (i + 1))], each of
    them one of 0, ..., [i]; [None] says that the given draws ran out, or
    that one of them is not such a value. *)
Fixpoint shuffle_from (i : nat) (l : list A) (draws : list nat)
  : option (list A) :=
  match i with
  | O => Some l
  | S i' =>
      match draws with
      | [] => None
      | j :: rest =>
          if decide (j <= i)%nat then
            l' ← swap l i j; shuffle_from i' l' rest
          else None
      end
  end.

Definition shuffleArray (array : list A) (draws : list nat) : option (list A) :=
  shuffle_from (length array - 1) array draws.

(** [if (x.status === 'fulfilled') results.push(...x.value)] *)
Definition fulfilled (r : JSError + list A) : list A :=
  match r with
  | inr l => l
  | inl _ => []
  end.

(** [getTrending], given how the promises of [getTrendingYouTube] and
    [getTrendingAudius] settled. *)
Definition getTrending (youtube audius : JSError + list A) (draws : list nat)
  : option (list A) :=
  let results := fulfilled youtube ++ fulfilled audius in
  shuffled ← shuffleArray results draws;
  Some (JSArray.slice0 shuffled 20).

(** The draws are enough for an array of the given length, and each is a
    value its turn of the loop can draw. *)
Definition draws_fit (len : nat) (draws : list nat) : Prop :=
  forall k, (k < len - 1)%nat ->
    exists j, draws !! k = Some j /\ (j <= len - 1 - k)%nat.
End Shuffle.
End Trending.

(** ** Liked tracks, play history and retention
    (src/server/database.js) *)

Module Library.
Import DatabaseManager.

(** [{...track, id: trackId, timestamp}] *)
Record LikedTrack := mkLiked {
  lk_track : Track;
  lk_id : string;
  lk_timestamp : Z
}.

(** [{...track, trackId, timestamp}] *)
Record HistoryEntry := mkHistory {
  h_track : Track;
  h_trackId : string;
  h_timestamp : Z
}.

(** The object stores [liked] and [history], both with [keyPath: 'id'].
    A liked track is given its [id] by [toggleLike]. A history entry is
    the track spread out with two more properties, so its [id] is the
    [id] of the track, and the store takes that as the key: the key
    generator of [history] is asked only for a record without a key, which
    a track with an [id] never is. *)
Record t := mk {
  liked : gmap string LikedTrack;
  history : gmap string HistoryEntry
}.

Definition empty : t := mk ∅ ∅.

Definition set_liked (lib : t) (m : gmap string LikedTrack) : t :=
  mk m (history lib).
Definition set_history (lib : t) (m : gmap string HistoryEntry) : t :=
  mk (liked lib) m.

Definition likeId (track : Track) : string :=
  source track +:+ "_" +:+ track_id track.

(** [toggleLike]: a [get] and then, in its success handler, a [delete]
    or an [add], all on one transaction. The promise is settled by the
    handlers of the requests: request 0 is the [get], request 1 the
    write. A failed request rejects with its error and aborts the
    transaction; a failed commit comes after the promise was fulfilled
    and undoes the write. *)
Definition toggleLike (lib : t) (track : Track) (now : Z) (f : Faults)
  : Promise bool * t :=
  let trackId := likeId track in
  match request_fault f 0 with
  | Some e => (Rejected (Some e), lib)
  | None =>
      match request_fault f 1 with
      | Some e => (Rejected (Some e), lib)
      | None =>
          let '(liked_now, written) :=
            match liked lib !! trackId with
            | Some _ => (false, delete trackId (liked lib))
            | None =>
                (true, <[trackId := mkLiked track trackId now]> (liked lib))
            end in
          match commit_fault f with
          | Some _ => (Fulfilled liked_now, lib)
          | None => (Fulfilled liked_now, set_liked lib written)
          end
      end
  end.

(** [!!request.result] *)
Definition isLiked (lib : t) (track : Track) (f : Faults) : Promise bool :=
  match request_fault f 0 with
  | Some e => Rejected (Some e)
  | None => Fulfilled (bool_decide (is_Some (liked lib !! likeId track)))
  end.

(** [store.add(historyEntry)]: the key is the [id] of the track, and
    [add] fails with a [ConstraintError] where the store has a record
    under that key. *)
Definition addToHistory (lib : t) (track : Track) (now : Z)
  : Promise string * t :=
  let id := track_id track in
  match history lib !! id with
  | Some _ => (Rejected (Some ConstraintError), lib)
  | None =>
      (Fulfilled id,
       set_history lib
         (<[id := mkHistory track (likeId track) now]> (history lib)))
  end.

(** The order of a [timestamp] index over a store with string keys: by
    timestamp, and by key among equal timestamps. String keys compare by
    their code units from the left, a proper prefix coming first. A
    string here is the sequence of its code units, one per character and
    each below 256, which is how [String.leb] compares it; keys with a
    code unit from 256 on have no counterpart here. *)
Definition stamp_le {V} (stamp : V -> Z) (a b : string * V) : Prop :=
  stamp a.2 < stamp b.2 \/
  (stamp a.2 = stamp b.2 /\ String.leb a.1 b.1 = true).

#[global] Instance stamp_le_dec {V} (stamp : V -> Z) a b :
  Decision (stamp_le stamp a b).
Proof. unfold stamp_le. apply _. Defined.

(** [index.getAll()] *)
Definition timestamp_index {V} (stamp : V -> Z) (m : gmap string V)
  : list (string * V) :=
  merge_sort (stamp_le stamp) (map_to_list m).

Definition getLikedSongs (lib : t) : Promise (list (string * LikedTrack)) :=
  Fulfilled (reverse (timestamp_index lk_timestamp (liked lib))).

(** [limit] is [None] when the argument is left out. *)
Definition getPlayHistory (lib : t) (limit : option Z)
  : Promise (list (string * HistoryEntry)) :=
  Fulfilled (JSArray.slice0 (reverse (timestamp_index h_timestamp (history lib)))
               (default 50 limit)).

Definition clearHistory (lib : t) : Promise unit * t :=
  (Fulfilled (), set_history lib ∅).

(** 30 days, in milliseconds. *)
Definition retention : Z := 30 * 24 * 60 * 60 * 1000.

(** The cursor loops of [cleanup]: a cursor opened on the [timestamp]
    index over [IDBKeyRange.upperBound(bound)] visits, in index order,
    the records whose timestamp is at most [bound], and each one is
    deleted. *)
Definition sweep_search (m : gmap Z SearchEntry) (bound : Z)
  : gmap Z SearchEntry :=
  foldl (fun acc s => delete s.1 acc) m
    (filter (fun s => timestamp s.2 <= bound)
       (merge_sort index_le (map_to_list m))).

Definition sweep_history (m : gmap string HistoryEntry) (bound : Z)
  : gmap string HistoryEntry :=
  foldl (fun acc s => delete s.1 acc) m
    (filter (fun s => h_timestamp s.2 <= bound)
       (timestamp_index h_timestamp m)).

(** The two stores once the transaction of [cleanup] has completed.
    ([cleanup] itself returns before that, and reports nothing.) *)
Definition cleanup (db : DatabaseManager.t) (lib : t) (now : Z)
  : DatabaseManager.t * t :=
  let thirtyDaysAgo := now - retention in
  (set_searchHistory db (sweep_search (searchHistory db) thirtyDaysAgo)
     (searchHistoryNext db),
   set_history lib (sweep_history (history lib) thirtyDaysAgo)).

(** [store.delete(id)] on the search history. *)
Definition removeFromSearchHistory (db : DatabaseManager.t) (id : Z)
  : Promise unit * DatabaseManager.t :=
  (Fulfilled (),
   set_searchHistory db (delete id (searchHistory db)) (searchHistoryNext db)).

(** [store.get(trackId)] on the offline tracks. *)
Definition getOfflineTrack (db : DatabaseManager.t) (trackId : string)
  : Promise (option OfflineTrack) :=
  Fulfilled (offlineTracks db !! trackId).

(** Keys drawn so far are below the generator, and no stored entry is
    later than [now]. *)
Definition search_history_before (db : DatabaseManager.t) (now : Z) : Prop :=
  forall id e, searchHistory db !! id = Some e ->
    id < searchHistoryNext db /\ timestamp e <= now.

End Library.

(** ** Playlist contents (src/server/database.js) *)

Module Playlists.
Import DatabaseManager.

(** What these functions reject with: the reason of a rejected store
    request, or the [TypeError] of reading [tracks] of a playlist that
    is not there. *)
Inductive Reason :=
| StoreError (e : option DOMError)
| JSTypeError.

Inductive Outcome (A : Type) :=
| Resolved (v : A)
| Threw (r : Reason)
| Unsettled.
Arguments Resolved {A} v.
Arguments Threw {A} r.
Arguments Unsettled {A}.

(** [playlist.tracks] as an array: [None] where using it throws (no
    playlist, or no array under [tracks]). *)
Definition tracks_of (playlist : option Obj) : option (list Track) :=
  match playlist with
  | Some r =>
      match r !! "tracks" with
      | Some (JTracks l) => Some l
      | _ => None
      end
  | None => None
  end.

(** The outcome of a function that awaits [updatePlaylist] and then
    returns [v]. *)
Definition of_update {A} (r : Promise Key * t * list Obj) (v : A)
  : Outcome A * t * list Obj :=
  match r with
  | (Fulfilled _, db', puts) => (Resolved v, db', puts)
  | (Rejected e, db', puts) => (Threw (StoreError e), db', puts)
  | (Pending, db', puts) => (Unsettled, db', puts)
  end.

(** Each function gives its outcome, the database and the records that
    were handed to [store.put]. *)
Definition addToPlaylist (db : t) (playlistId : JSValue) (track : Track)
    (now : Z) : Outcome bool * t * list Obj :=
  match getPlaylist db playlistId with
  | Rejected e => (Threw (StoreError e), db, [])
  | Pending => (Unsettled, db, [])
  | Fulfilled playlist =>
      match tracks_of playlist with
      | None => (Threw JSTypeError, db, [])
      | Some l =>
          let exists_ :=
            existsb (fun t => PlayerControls.same_track t track) l in
          if exists_ then (Resolved false, db, [])
          else
            of_update
              (updatePlaylist db playlistId
                 {[ "tracks" := JTracks (l ++ [track]) ]} now)
              true
      end
  end.

Definition removeFromPlaylist (db : t) (playlistId : JSValue)
    (trackId : string) (now : Z) : Outcome unit * t * list Obj :=
  match getPlaylist db playlistId with
  | Rejected e => (Threw (StoreError e), db, [])
  | Pending => (Unsettled, db, [])
  | Fulfilled playlist =>
      match tracks_of playlist with
      | None => (Threw JSTypeError, db, [])
      | Some l =>
          let kept :=
            filter (fun t => negb (String.eqb (track_id t) trackId) = true) l in
          of_update
            (updatePlaylist db playlistId {[ "tracks" := JTracks kept ]} now)
            ()
      end
  end.

End Playlists.

(** * Properties *)

(** ** JavaScript arrays *)

Section ArrayFacts.
Context {A : Type}.
Implicit Types l : list A.

Lemma actualStart_in_range (i : Z) (n : nat) :
  0 <= i <= Z.of_nat n -> JSArray.actualStart i n = Z.to_nat i.
Proof.
  intros H. unfold JSArray.actualStart.
  destruct (Z.ltb_spec i 0); [lia|]. f_equal. lia.
Qed.

(** Removing one element at an index within the array. *)
Lemma splice_remove_one l (i : Z) (x : A) :
  0 <= i -> l !! Z.to_nat i = Some x ->
  JSArray.splice l i 1 [] = (delete (Z.to_nat i) l, [x]).
Proof.
  intros Hi Hx. pose proof (lookup_lt_Some _ _ _ Hx) as Hlt.
  unfold JSArray.splice.
  rewrite actualStart_in_range by lia.
  unfold JSArray.actualDeleteCount.
  replace (Z.to_nat (Z.min (Z.max 1 0) (Z.of_nat (length l) - Z.of_nat (Z.to_nat i))))
    with 1%nat by lia.
  f_equal.
  - rewrite delete_take_drop. simpl. f_equal. f_equal. lia.
  - rewrite (drop_S _ _ _ Hx). simpl. by rewrite take_0.
Qed.

(** Inserting one element at a position of the array, or at its end. *)
Lemma splice_insert_one l (j : Z) (x : A) :
  0 <= j <= Z.of_nat (length l) ->
  JSArray.splice l j 0 [x]
  = (take (Z.to_nat j) l ++ x :: drop (Z.to_nat j) l, []).
Proof.
  intros Hj. unfold JSArray.splice.
  rewrite actualStart_in_range by lia.
  unfold JSArray.actualDeleteCount.
  replace (Z.to_nat (Z.min (Z.max 0 0) (Z.of_nat (length l) - Z.of_nat (Z.to_nat j))))
    with 0%nat by lia.
  rewrite Nat.add_0_r, take_0. reflexivity.
Qed.

Lemma lookup_inserted l (n : nat) (x : A) :
  (n <= length l)%nat -> (take n l ++ x :: drop n l) !! n = Some x.
Proof.
  intros H. rewrite lookup_app_r; rewrite length_take; [|lia].
  replace (n - n `min` length l)%nat with 0%nat by lia. reflexivity.
Qed.

Lemma delete_inserted l (n : nat) (x : A) :
  (n <= length l)%nat -> delete n (take n l ++ x :: drop n l) = l.
Proof.
  intros H. rewrite delete_take_drop.
  rewrite take_app_le by (rewrite length_take; lia).
  rewrite take_take, Nat.min_id.
  rewrite drop_app_ge by (rewrite length_take; lia).
  rewrite length_take.
  replace (S n - n `min` length l)%nat with 1%nat by lia.
  simpl. rewrite drop_0. apply take_drop.
Qed.
End ArrayFacts.

(** ** The queue *)

Section QueueFacts.
Import MusicPlayer.

Lemma in_range_spec (p : t) (i : Z) :
  in_range p i = true <-> 0 <= i < len p.
Proof. unfold in_range. rewrite andb_true_iff. lia. Qed.

Lemma in_range_lookup (p : t) (i : Z) :
  in_range p i = true -> exists x, queue p !! Z.to_nat i = Some x.
Proof.
  intros H%in_range_spec. unfold len in H.
  apply lookup_lt_is_Some_2. lia.
Qed.

(** [removeFromQueue] at an index within the queue. *)
Lemma removeFromQueue_in_range (p : t) (i : Z) :
  in_range p i = true ->
  removeFromQueue p i =
    let p1 := set_queue p (delete (Z.to_nat i) (queue p)) in
    if i <? queueIndex p then set_queueIndex p1 (queueIndex p - 1) else p1.
Proof.
  intros H. destruct (in_range_lookup _ _ H) as [x Hx].
  apply in_range_spec in H. unfold removeFromQueue.
  rewrite (splice_remove_one _ _ x) by (lia || done). reflexivity.
Qed.

(** The queue after [reorderQueue] with both indices within it. *)
Lemma reorderQueue_queue (p : t) (i j : Z) (x : slot) :
  in_range p j = true -> 0 <= i -> queue p !! Z.to_nat i = Some x ->
  queue (reorderQueue p i j) =
    take (Z.to_nat j) (delete (Z.to_nat i) (queue p))
      ++ x :: drop (Z.to_nat j) (delete (Z.to_nat i) (queue p)).
Proof.
  intros Hj%in_range_spec Hi Hx.
  pose proof (lookup_lt_Some _ _ _ Hx) as Hlt. unfold len in Hj.
  unfold reorderQueue. rewrite (splice_remove_one _ _ x) by done.
  cbn [first_removed].
  rewrite splice_insert_one
    by (rewrite length_delete by eauto; lia).
  cbn [fst]. repeat case_match; reflexivity.
Qed.

(** The cursor after [reorderQueue], whatever the indices. *)
Lemma reorderQueue_queueIndex (p : t) (i j : Z) :
  queueIndex (reorderQueue p i j) =
    if i =? queueIndex p then j
    else if (i <? queueIndex p) && (j >=? queueIndex p) then queueIndex p - 1
    else if (i >? queueIndex p) && (j <=? queueIndex p) then queueIndex p + 1
    else queueIndex p.
Proof.
  unfold reorderQueue. destruct (JSArray.splice (queue p) i 1 []) as [q1 rem].
  cbn. repeat case_match; reflexivity.
Qed.

(** From an unselected queue, a mutation within range selects nothing. *)
Lemma apply_op_unselected (p : t) (op : QueueOp) :
  queueIndex p = -1 -> op_in_range p op = true ->
  queueIndex (apply_op p op) = -1.
Proof.
  intros Hidx Hop. destruct op as [tr|i|i j]; cbn [apply_op op_in_range] in *.
  - done.
  - rewrite removeFromQueue_in_range by done.
    apply in_range_spec in Hop. cbn.
    destruct (Z.ltb_spec i (queueIndex p)); [lia|done].
  - apply andb_true_iff in Hop as [Hi%in_range_spec Hj%in_range_spec].
    rewrite reorderQueue_queueIndex, Hidx.
    destruct (Z.eqb_spec i (-1)); [lia|].
    destruct (Z.ltb_spec i (-1)); [lia|].
    destruct (Z.leb_spec j (-1)); [lia|].
    cbn. by rewrite andb_false_r.
Qed.

Lemma unselected_cursor_valid (p : t) : queueIndex p = -1 -> cursor_valid p.
Proof. intros H. split; [done | by left]. Qed.

Lemma reorderQueue_length (p : t) (i j : Z) :
  in_range p i = true -> in_range p j = true ->
  len (reorderQueue p i j) = len p.
Proof.
  intros Hi Hj. destruct (in_range_lookup _ _ Hi) as [x Hx].
  pose proof Hi as Hi'%in_range_spec. pose proof Hj as Hj'%in_range_spec.
  unfold len in *.
  rewrite (reorderQueue_queue p i j x) by (done || lia).
  rewrite length_app, length_cons, length_take, length_drop.
  rewrite length_delete by eauto. lia.
Qed.

(** Once a track is selected, [addToQueue] and [reorderQueue] keep the
    cursor on a queue entry. *)
Lemma addToQueue_cursor_valid (p : t) (track : slot) :
  cursor_valid p -> cursor_valid (addToQueue p track).
Proof.
  intros [_ Hc]. unfold cursor_valid, len in *. cbn.
  split; [intros H; by apply app_eq_nil in H as [_ ?]|].
  rewrite length_app. cbn. lia.
Qed.

Lemma reorderQueue_cursor_valid (p : t) (i j : Z) :
  in_range p i = true -> in_range p j = true ->
  cursor_valid p -> cursor_valid (reorderQueue p i j).
Proof.
  intros Hi Hj [_ Hc].
  pose proof (reorderQueue_length p i j Hi Hj) as Hlen.
  pose proof (reorderQueue_queueIndex p i j) as Hidx.
  apply in_range_spec in Hi, Hj.
  assert (Hc' : queueIndex (reorderQueue p i j) = -1 \/
                0 <= queueIndex (reorderQueue p i j) < len (reorderQueue p i j)).
  { rewrite Hlen, Hidx.
    destruct (Z.eqb_spec i (queueIndex p)), (Z.ltb_spec i (queueIndex p)),
      (Z.geb_spec j (queueIndex p)), (Z.gtb_spec i (queueIndex p)),
      (Z.leb_spec j (queueIndex p)); cbn; lia. }
  split; [|done]. intros Hnil. unfold len in *. rewrite Hnil in Hlen.
  cbn in Hlen. lia.
Qed.

(** It is "play now", not "add to queue", that selects a track. *)
Lemma playTrack_enqueue_selects (p : t) (track : slot) :
  queue_invariant (playTrack_enqueue p track).
Proof.
  unfold queue_invariant, playTrack_enqueue, len. cbn.
  rewrite length_app. cbn.
  assert (queue p ++ [track] <> []) by (intros H; by apply app_eq_nil in H as [_ ?]).
  split; [split; [lia | done] | lia].
Qed.

(** [removeFromQueue] on the entry under the cursor leaves the cursor
    where it is: when that entry was the last one, the cursor ends one
    past the end of the queue. *)
Example remove_last_under_cursor :
  removeFromQueue (Sample.player [Sample.t0; Sample.t1] 1) 1
  = Sample.player [Sample.t0] 1.
Proof. reflexivity. Qed.
End QueueFacts.

Section QueueClaims.
Import MusicPlayer.

Lemma trace_unselected (ops : list QueueOp) : forall p : t,
  queueIndex p = -1 -> ops_in_range p ops = true ->
  Forall (fun p' => queueIndex p' = -1) (trace p ops).
Proof.
  induction ops as [|op ops IH]; intros p Hidx Hops; cbn in *.
  - constructor.
  - apply andb_true_iff in Hops as [Hop Hops].
    pose proof (apply_op_unselected p op Hidx Hop) as Hidx'.
    constructor; [done | by apply IH].
Qed.

(** C1: the queue invariant of the specification fails already after one
    [addToQueue] on the empty queue: the queue has an entry and the
    cursor is still [-1]. *)
Lemma queue_invariant_broken_by_add :
  ops_in_range initial [OpAdd Sample.t0] = true /\
  trace initial [OpAdd Sample.t0]
    = [mk [Some Sample.t0] (-1) false "none" f_one false] /\
  ~ Forall queue_invariant (trace initial [OpAdd Sample.t0]).
Proof.
  split; [reflexivity|]. split; [reflexivity|].
  intros H. apply Forall_cons_1 in H as [[[H _] _] _].
  cbn in H. by specialize (H eq_refl).
Qed.

(** C1 (amended): for every sequence of [addToQueue], [removeFromQueue]
    and [reorderQueue] calls with indices within the queue, starting from
    the empty queue, after each operation the cursor is still [-1]
    (these mutations never select a track); so the cursor is [-1]
    whenever the queue is empty, and it is always [-1] or a valid
    index. *)
Theorem queue_mutations_keep_cursor_unselected (ops : list QueueOp) :
  ops_in_range initial ops = true ->
  Forall (fun p => queueIndex p = -1 /\ cursor_valid p) (trace initial ops).
Proof.
  intros Hops.
  eapply Forall_impl; [by apply trace_unselected|].
  intros p Hp. split; [done | by apply unselected_cursor_valid].
Qed.

Lemma queue_mutations_keep_cursor_unselected_witness :
  ops_in_range initial
    [OpAdd Sample.t0; OpAdd Sample.t1; OpReorder 0 1; OpRemove 1] = true /\
  Forall (fun p => queueIndex p = -1 /\ cursor_valid p)
    (trace initial
       [OpAdd Sample.t0; OpAdd Sample.t1; OpReorder 0 1; OpRemove 1]).
Proof.
  split; [reflexivity|].
  apply queue_mutations_keep_cursor_unselected. reflexivity.
Defined.

(** C7: [reorderQueue] with both indices within the queue moves the entry
    at [fromIndex] to position [toIndex], keeps the other entries in
    order, and moves the cursor by the stated rule; on [[t0,t1,t2,t3]]
    with the cursor at 2, [reorderQueue(0, 3)] gives [[t1,t2,t3,t0]] with
    the cursor at 1. *)
Theorem reorder_cursor_law (p : t) (fromIndex toIndex : Z) :
  in_range p fromIndex = true -> in_range p toIndex = true ->
  let p' := reorderQueue p fromIndex toIndex in
  length (queue p') = length (queue p) /\
  JSArray.get (queue p') toIndex = JSArray.get (queue p) fromIndex /\
  delete (Z.to_nat toIndex) (queue p')
    = delete (Z.to_nat fromIndex) (queue p) /\
  (fromIndex = queueIndex p -> queueIndex p' = toIndex) /\
  (fromIndex < queueIndex p <= toIndex ->
     queueIndex p' = queueIndex p - 1) /\
  (toIndex <= queueIndex p < fromIndex ->
     queueIndex p' = queueIndex p + 1) /\
  (fromIndex <> queueIndex p ->
   ~ fromIndex < queueIndex p <= toIndex ->
   ~ toIndex <= queueIndex p < fromIndex ->
     queueIndex p' = queueIndex p) /\
  reorderQueue (Sample.player [Sample.t0; Sample.t1; Sample.t2; Sample.t3] 2)
               0 3
    = Sample.player [Sample.t1; Sample.t2; Sample.t3; Sample.t0] 1.
Proof.
  intros Hi Hj p'.
  destruct (in_range_lookup _ _ Hi) as [x Hx].
  pose proof Hi as Hi'%in_range_spec. pose proof Hj as Hj'%in_range_spec.
  unfold len in *.
  pose proof (reorderQueue_queue p fromIndex toIndex x Hj (proj1 Hi') Hx) as Hq.
  pose proof (reorderQueue_queueIndex p fromIndex toIndex) as Hc.
  fold p' in Hq, Hc.
  assert (Hlen : (Z.to_nat toIndex
                  <= length (delete (Z.to_nat fromIndex) (queue p)))%nat)
    by (rewrite length_delete by eauto; lia).
  repeat split.
  - rewrite Hq, length_app, length_cons, length_take, length_drop.
    rewrite length_delete by eauto. lia.
  - unfold JSArray.get.
    destruct (Z.ltb_spec toIndex 0); [lia|].
    destruct (Z.ltb_spec fromIndex 0); [lia|].
    by rewrite Hq, lookup_inserted, Hx.
  - by rewrite Hq, delete_inserted.
  - intros E. rewrite Hc. by apply Z.eqb_eq in E as ->.
  - intros [E1 E2]. rewrite Hc.
    destruct (Z.eqb_spec fromIndex (queueIndex p)); [lia|].
    destruct (Z.ltb_spec fromIndex (queueIndex p)); [|lia].
    destruct (Z.geb_spec toIndex (queueIndex p)); [done|lia].
  - intros [E1 E2]. rewrite Hc.
    destruct (Z.eqb_spec fromIndex (queueIndex p)); [lia|].
    destruct (Z.ltb_spec fromIndex (queueIndex p)); [lia|]. cbn.
    destruct (Z.gtb_spec fromIndex (queueIndex p)); [|lia].
    destruct (Z.leb_spec toIndex (queueIndex p)); [done|lia].
  - intros E1 E2 E3. rewrite Hc.
    destruct (Z.eqb_spec fromIndex (queueIndex p)); [lia|].
    destruct (Z.ltb_spec fromIndex (queueIndex p)),
             (Z.geb_spec toIndex (queueIndex p)),
             (Z.gtb_spec fromIndex (queueIndex p)),
             (Z.leb_spec toIndex (queueIndex p)); cbn; lia.
Qed.

Lemma reorder_cursor_law_witness :
  let p := Sample.player [Sample.t0; Sample.t1; Sample.t2] 1 in
  queue (reorderQueue p 2 0) = Some <$> [Sample.t2; Sample.t0; Sample.t1] /\
  queueIndex (reorderQueue p 2 0) = 2.
Proof.
  intros p.
  destruct (reorder_cursor_law p 2 0 eq_refl eq_refl)
    as (_ & _ & _ & _ & _ & Hinc & _).
  split; [reflexivity|]. apply Hinc. cbn. lia.
Defined.
End QueueClaims.

(** ** What plays next *)

Section AdvanceClaims.
Import MusicPlayer.

(** The loop of [playRandom] ends at the first draw off the cursor. *)
Lemma draw_until_first (pre rest : list Z) (r current : Z) :
  Forall (fun d => d = current) pre -> r <> current ->
  draw_until (pre ++ r :: rest) current = Some r.
Proof.
  intros Hpre Hr. induction Hpre as [|d pre -> _ IH]; cbn.
  - destruct (Z.eqb_spec r current); [done|reflexivity].
  - by rewrite Z.eqb_refl.
Qed.

Lemma draw_until_Some (draws : list Z) (r current : Z) :
  draw_until draws current = Some r -> r ∈ draws /\ r <> current.
Proof.
  induction draws as [|d draws IH]; cbn; [done|].
  destruct (Z.eqb_spec d current) as [->|Hne].
  - intros [? ?]%IH. split; [by right|done].
  - intros [= ->]. split; [by left|done].
Qed.

(** Draws that leave the cursor at least once are enough for the loop. *)
Lemma draw_until_enough (draws : list Z) (current : Z) :
  (exists r, r ∈ draws /\ r <> current) ->
  is_Some (draw_until draws current).
Proof.
  intros (r & Hin & Hne). induction draws as [|d draws IH]; cbn.
  - by apply elem_of_nil in Hin.
  - destruct (Z.eqb_spec d current) as [->|]; [|by eexists].
    apply elem_of_cons in Hin as [->|Hin]; [done | by apply IH].
Qed.

(** Counting the runs that end at [j], by their first draw. *)
Lemma runs_to_cons (current j r : Z) (runs : list (list Z)) :
  runs_to current j ((fun draws => r :: draws) <$> runs) =
    if decide (r = current) then runs_to current j runs
    else if decide (r = j) then length runs else 0%nat.
Proof.
  unfold runs_to. induction runs as [|ds runs IH].
  - repeat case_decide; reflexivity.
  - rewrite fmap_cons, !filter_cons. cbn [draw_until]. revert IH.
    destruct (decide (r = current)) as [->|Hne].
    + rewrite Z.eqb_refl. intros IH.
      case_decide; cbn [length]; by rewrite IH.
    + destruct (Z.eqb_spec r current) as [|_]; [done|].
      destruct (decide (r = j)) as [->|Hj]; intros IH.
      * rewrite decide_True by done. cbn [length]. by rewrite IH.
      * rewrite decide_False by congruence. by rewrite IH.
Qed.

Lemma runs_to_first_draw (current j : Z) (runs : list (list Z)) (l : list Z) :
  runs_to current j (r ← l; (fun draws => r :: draws) <$> runs)
  = sum_list_with
      (fun r => if decide (r = current) then runs_to current j runs
                else if decide (r = j) then length runs else 0%nat) l.
Proof.
  induction l as [|r l IH]; [done|].
  rewrite bind_cons. cbn [sum_list_with].
  rewrite <- IH, <- runs_to_cons. unfold runs_to.
  by rewrite filter_app, length_app.
Qed.

(** One first draw ends the loop at [j], the draw [current] defers to
    the rest of the run, every other first draw ends it elsewhere. *)
Lemma sum_first_draws_absent (current j : Z) (c a : nat) (l : list Z) :
  j ∉ l -> NoDup l ->
  sum_list_with (fun r => if decide (r = current) then c
                          else if decide (r = j) then a else 0%nat) l
  = if decide (current ∈ l) then c else 0%nat.
Proof.
  intros Hj Hnd. induction Hnd as [|x l Hx Hnd IH]; cbn [sum_list_with].
  - by rewrite decide_False by apply not_elem_of_nil.
  - apply not_elem_of_cons in Hj as [Hjx Hj]. rewrite IH by done.
    destruct (decide (x = current)) as [->|Hne].
    + rewrite (decide_False (P := current ∈ l)) by done.
      rewrite decide_True by (by left). lia.
    + rewrite (decide_False (P := x = j)) by done.
      destruct (decide (current ∈ l)) as [Hin|Hnin].
      * by rewrite decide_True by (by right).
      * rewrite decide_False; [done|].
        by intros [?|?]%elem_of_cons.
Qed.

Lemma sum_first_draws (current j : Z) (c a : nat) (l : list Z) :
  j ∈ l -> j <> current -> NoDup l ->
  sum_list_with (fun r => if decide (r = current) then c
                          else if decide (r = j) then a else 0%nat) l
  = ((if decide (current ∈ l) then c else 0) + a)%nat.
Proof.
  intros Hj Hjc Hnd. induction Hnd as [|x l Hx Hnd IH]; cbn [sum_list_with].
  - by apply elem_of_nil in Hj.
  - destruct (decide (x = current)) as [->|Hne].
    + apply elem_of_cons in Hj as [?|Hj]; [done|]. rewrite IH by done.
      rewrite (decide_False (P := current ∈ l)) by done.
      rewrite decide_True by (by left). lia.
    + destruct (decide (x = j)) as [->|Hxj].
      * rewrite sum_first_draws_absent by done.
        destruct (decide (current ∈ l)) as [Hin|Hnin].
        -- rewrite decide_True by (by right). lia.
        -- rewrite decide_False; [lia|]. by intros [?|?]%elem_of_cons.
      * apply elem_of_cons in Hj as [?|Hj]; [done|]. rewrite IH by done.
        destruct (decide (current ∈ l)) as [Hin|Hnin].
        -- by rewrite decide_True by (by right).
        -- rewrite decide_False; [done|]. by intros [?|?]%elem_of_cons.
Qed.

(** Among all runs of [n] draws, as many end the loop at one index off
    the cursor as at any other. *)
Lemma runs_to_uniform (n : nat) (length current j j' : Z) :
  0 <= j < length -> 0 <= j' < length -> j <> current -> j' <> current ->
  runs_to current j (all_draws n length)
  = runs_to current j' (all_draws n length).
Proof.
  intros Hj Hj' Hjc Hj'c. induction n as [|n IH]; [done|].
  cbn [all_draws]. rewrite !runs_to_first_draw.
  rewrite !sum_first_draws, IH;
    [done | try (apply elem_of_seqZ; lia); try done; apply NoDup_seqZ ..].
Qed.

Lemma runs_to_current (n : nat) (length current : Z) :
  runs_to current current (all_draws n length) = 0%nat.
Proof.
  unfold runs_to. induction (all_draws n length) as [|ds runs IH]; [done|].
  rewrite filter_cons. case_decide as Hds; [|done].
  by apply draw_until_Some in Hds as [_ ?].
Qed.

(** With shuffle on and at least two entries, [playNext] lands where
    the loop of [playRandom] ends. *)
Lemma lands_on_draw_until (p : t) (j : Z) (draws : list Z) :
  shuffle p = true -> 1 < len p ->
  lands_on p j draws = true <-> draw_until draws (queueIndex p) = Some j.
Proof.
  intros Hs Hl. unfold lands_on, playNext, playRandom. rewrite Hs.
  destruct (Z.leb_spec (len p) 1); [lia|].
  destruct (draw_until draws (queueIndex p)) as [r|]; cbn; [|done].
  rewrite Z.eqb_eq. split; congruence.
Qed.

Lemma runs_landing_on_runs_to (p : t) (j : Z) (n : nat) :
  shuffle p = true -> 1 < len p ->
  runs_landing_on p j n = runs_to (queueIndex p) j (all_draws n (len p)).
Proof.
  intros Hs Hl. unfold runs_landing_on, runs_to. f_equal.
  apply list_filter_iff. intros ds. by apply lands_on_draw_until.
Qed.

(** C3: an explicit "next" does not look at repeat-one. With the queue
    [[t0,t1]], the cursor at 0 and [repeatMode = 'one'], the end of the
    track replays it and leaves the cursor at 0, while [playNext] moves the
    cursor to 1 and plays [t1]. *)
Lemma explicit_next_ignores_repeat_one :
  let p := mk [Some Sample.t0; Some Sample.t1] 0 false "one" f_one true in
  handleTrackEnd p [] = Some (p, [SeekTo 0; AudioPlay]) /\
  playNext p [] = Some (set_queueIndex p 1, [PlayTrack (Some Sample.t1)]) /\
  (forall p' acts, playNext p [] = Some (p', acts) -> queueIndex p' <> queueIndex p).
Proof.
  intros p. split; [reflexivity|]. split; [reflexivity|].
  intros p' acts [= <- _]. cbn. lia.
Qed.

(** C3 (amended): at the natural end of a track, repeat-one replays the
    current track without moving the cursor, and any other repeat mode
    goes on as an explicit "next" does. An explicit "next" does not look
    at repeat-one: with shuffle on it does nothing on a queue of at most
    one entry and otherwise moves the cursor to the first randomly drawn
    index that differs from it (the loop ends as soon as the draws leave
    the cursor), so that, the draws being uniform, the next index is
    uniform among all indices except the current one: of all runs of [n]
    draws, as many land on one such index as on any other, and none lands
    on the current one. With shuffle off it moves the cursor one up when
    it is below the last index, else wraps it to 0 under repeat-all, else
    changes nothing and plays nothing. *)
Theorem advance_rule (p : t) (draws : list Z) :
  (repeatMode p = "one" ->
     handleTrackEnd p draws = Some (p, SeekTo 0 :: play p)) /\
  (repeatMode p <> "one" -> handleTrackEnd p draws = playNext p draws) /\
  (shuffle p = true -> len p <= 1 -> playNext p draws = Some (p, [])) /\
  (shuffle p = true -> 1 < len p ->
     forall pre r rest,
       draws = pre ++ r :: rest ->
       Forall (fun d => d = queueIndex p) pre -> r <> queueIndex p ->
       playNext p draws
       = Some (set_queueIndex p r,
               [PlayTrack (mjoin (JSArray.get (queue p) r))])) /\
  (shuffle p = true -> 1 < len p ->
     (exists r, r ∈ draws /\ r <> queueIndex p) ->
     exists r, r ∈ draws /\ r <> queueIndex p /\
       playNext p draws
       = Some (set_queueIndex p r,
               [PlayTrack (mjoin (JSArray.get (queue p) r))])) /\
  (shuffle p = true -> 1 < len p ->
     forall (n : nat) (j j' : Z),
       0 <= j < len p -> 0 <= j' < len p ->
       j <> queueIndex p -> j' <> queueIndex p ->
       runs_landing_on p j n = runs_landing_on p j' n) /\
  (shuffle p = true -> 1 < len p ->
     forall n : nat, runs_landing_on p (queueIndex p) n = 0%nat) /\
  (shuffle p = false -> queueIndex p < len p - 1 ->
     playNext p draws
     = Some (set_queueIndex p (queueIndex p + 1),
             [PlayTrack (mjoin (JSArray.get (queue p) (queueIndex p + 1)))])) /\
  (shuffle p = false -> len p - 1 <= queueIndex p -> repeatMode p = "all" ->
     playNext p draws
     = Some (set_queueIndex p 0,
             [PlayTrack (mjoin (JSArray.get (queue p) 0))])) /\
  (shuffle p = false -> len p - 1 <= queueIndex p -> repeatMode p <> "all" ->
     playNext p draws = Some (p, [])).
Proof.
  repeat apply conj.
  - intros E. unfold handleTrackEnd. by rewrite E.
  - intros E%String.eqb_neq. unfold handleTrackEnd. by rewrite E.
  - intros Hs Hl. unfold playNext, playRandom. rewrite Hs.
    destruct (Z.leb_spec (len p) 1); [done|lia].
  - intros Hs Hl pre r rest -> Hpre Hr. unfold playNext, playRandom.
    rewrite Hs. destruct (Z.leb_spec (len p) 1); [lia|].
    by rewrite draw_until_first.
  - intros Hs Hl Hex. unfold playNext, playRandom. rewrite Hs.
    destruct (Z.leb_spec (len p) 1); [lia|].
    destruct (draw_until_enough _ _ Hex) as [r Hr]. rewrite Hr.
    destruct (draw_until_Some _ _ _ Hr). by exists r.
  - intros Hs Hl n j j' Hj Hj' Hjc Hj'c.
    rewrite !runs_landing_on_runs_to by done. by apply runs_to_uniform.
  - intros Hs Hl n. rewrite runs_landing_on_runs_to by done.
    apply runs_to_current.
  - intros Hs Hl. unfold playNext. rewrite Hs.
    destruct (Z.ltb_spec (queueIndex p) (len p - 1)); [done|lia].
  - intros Hs Hl E. unfold playNext. rewrite Hs, E.
    destruct (Z.ltb_spec (queueIndex p) (len p - 1)); [lia|done].
  - intros Hs Hl E%String.eqb_neq. unfold playNext. rewrite Hs, E.
    destruct (Z.ltb_spec (queueIndex p) (len p - 1)); [lia|done].
Qed.

Lemma advance_rule_witness :
  let p := mk [Some Sample.t0; Some Sample.t1; Some Sample.t2] 1 true "all"
              f_one true in
  playNext p [1; 1; 2; 0]
  = Some (set_queueIndex p 2, [PlayTrack (Some Sample.t2)]).
Proof.
  intros p.
  destruct (advance_rule p [1; 1; 2; 0]) as (_ & _ & _ & Hshuffle & _).
  apply (Hshuffle eq_refl eq_refl [1; 1] 2 [0] eq_refl).
  - repeat constructor.
  - cbn. lia.
Defined.

(** Of the 27 runs of three draws on a queue of three entries with the
    cursor at 1, 13 land on index 0, 13 on index 2, and the one run that
    never leaves the cursor does not end the loop. *)
Example shuffle_three_draws :
  let p := mk [Some Sample.t0; Some Sample.t1; Some Sample.t2] 1 true "none"
              f_one true in
  length (all_draws 3 (len p)) = 27%nat /\
  runs_landing_on p 0 3 = 13%nat /\ runs_landing_on p 2 3 = 13%nat /\
  runs_landing_on p 1 3 = 0%nat /\ playNext p [1; 1; 1] = None.
Proof. vm_compute. repeat split. Qed.
End AdvanceClaims.

(** ** Volume *)

Section VolumeFacts.
Import MusicPlayer.

Lemma compare_cont_Eq_antisym (m n : positive) :
  Pos.compare_cont Eq n m = CompOpp (Pos.compare_cont Eq m n).
Proof. symmetry. apply (Pos.compare_cont_antisym m n Eq). Qed.

(** Comparing the other way round gives the opposite answer. *)
Lemma SFcompare_antisym (a b : spec_float) :
  SFcompare b a = CompOpp <$> SFcompare a b.
Proof.
  destruct a as [sa|sa| |sa ma ea], b as [sb|sb| |sb mb eb];
    try destruct sa; try destruct sb; try reflexivity.
  - cbn. rewrite (Z.compare_antisym ea eb).
    destruct (ea ?= eb); cbn; try reflexivity.
    by rewrite (compare_cont_Eq_antisym ma mb).
  - cbn. rewrite (Z.compare_antisym ea eb).
    destruct (ea ?= eb); cbn; try reflexivity.
    by rewrite (compare_cont_Eq_antisym ma mb).
Qed.

Lemma SFcompare_refl (a : spec_float) :
  is_nan a = false -> SFcompare a a = Some Eq.
Proof.
  destruct a as [s|s| |s m e]; try destruct s; try done; intros _; cbn;
    by rewrite Z.compare_refl, Pos.compare_cont_refl.
Qed.

Lemma SFeqb_refl (a : spec_float) : is_nan a = false -> SFeqb a a = true.
Proof. intros H. unfold SFeqb. by rewrite SFcompare_refl. Qed.

(** [Math.max(0, Math.min(1, v))] is [v] clamped into [0, 1], for every
    [v] but NaN. *)
Lemma clamp_correct (v : spec_float) :
  is_nan v = false ->
  SFeqb (Math_max f_zero (Math_min f_one v)) (clamp01 v) = true /\
  in_unit_interval (Math_max f_zero (Math_min f_one v)) = true.
Proof.
  intros Hv. destruct v as [s|s| |s m e]; try done;
    try (destruct s; split; reflexivity).
  destruct s; [split; reflexivity|].
  pose proof (SFcompare_antisym f_one (S754_finite false m e)) as Hanti.
  assert (Hmax : Math_max f_zero (S754_finite false m e)
                 = S754_finite false m e) by reflexivity.
  unfold Math_min, clamp01, in_unit_interval, SFltb, SFleb.
  destruct (SFcompare f_one (S754_finite false m e)) as [[]|] eqn:Hc;
    cbn [fmap option_fmap option_map CompOpp] in Hanti.
  - change (match f_one with S754_zero true => f_one | _ => ?x end) with x.
    rewrite Hmax, Hanti. split; [|reflexivity]. by apply SFeqb_refl.
  - split; reflexivity.
  - rewrite Hmax, Hanti. split; [|reflexivity]. by apply SFeqb_refl.
  - discriminate Hc.
Qed.

(** Rounding a non-negative mantissa never produces NaN. *)
Lemma shr_1_nonneg (mrs : shr_record) :
  0 <= shr_m mrs -> 0 <= shr_m (shr_1 mrs).
Proof. destruct mrs as [[|[]|[]] r s]; cbn; lia. Qed.

Lemma iter_shr_1_nonneg (n : positive) : forall mrs : shr_record,
  0 <= shr_m mrs -> 0 <= shr_m (SpecFloat.iter_pos shr_1 n mrs).
Proof.
  induction n as [n IH|n IH|]; intros mrs H; cbn.
  - apply IH, IH. by apply shr_1_nonneg.
  - by apply IH, IH.
  - by apply shr_1_nonneg.
Qed.

Lemma shr_fexp_nonneg (m e : Z) (l : location) :
  0 <= m -> 0 <= shr_m (shr_fexp prec emax m e l).1.
Proof.
  intros H. unfold shr_fexp, shr.
  assert (0 <= shr_m (shr_record_of_loc m l)) by (by destruct l as [|[]]).
  case_match; cbn; try done. by apply iter_shr_1_nonneg.
Qed.

Lemma round_nearest_even_nonneg (m : Z) (l : location) :
  0 <= m -> 0 <= round_nearest_even m l.
Proof. intros H. destruct l as [|[]]; cbn; try case_match; lia. Qed.

Lemma binary_round_aux_not_nan (sx : bool) (mx ex : Z) (lx : location) :
  0 <= mx -> is_nan (binary_round_aux prec emax sx mx ex lx) = false.
Proof.
  intros H. unfold binary_round_aux.
  pose proof (shr_fexp_nonneg mx ex lx H) as H1.
  destruct (shr_fexp prec emax mx ex lx) as [mrs' e'].
  pose proof (shr_fexp_nonneg _ e' loc_Exact
                (round_nearest_even_nonneg _ (loc_of_shr_record mrs') H1)) as H2.
  destruct (shr_fexp prec emax _ e' loc_Exact) as [mrs'' e''].
  cbn in H2. destruct (shr_m mrs''); [done| by case_match | lia].
Qed.

Lemma binary_normalize_not_nan (m e : Z) (szero : bool) :
  is_nan (binary_normalize prec emax m e szero) = false.
Proof.
  destruct m; cbn; [done| |];
    unfold binary_round; case_match; by apply binary_round_aux_not_nan.
Qed.

(** A finite number plus anything but NaN is not NaN. *)
Lemma SFadd_not_nan (a b : spec_float) :
  is_nan a = false -> is_infinity a = false -> is_nan b = false ->
  is_nan (SFadd prec emax a b) = false.
Proof.
  intros Ha Hi Hb.
  destruct a as [sa|sa| |sa ma ea], b as [sb|sb| |sb mb eb]; try done;
    try (destruct sa, sb; done).
  cbn [SFadd]. apply binary_normalize_not_nan.
Qed.

Lemma in_unit_interval_finite (v : spec_float) :
  in_unit_interval v = true -> is_nan v = false /\ is_infinity v = false.
Proof. destruct v as [s|[]| |s m e]; done. Qed.

(** The volume after [setVolume] or [adjustVolume] on a volume within
    [0, 1], for arguments other than NaN. *)
Lemma apply_volume_op_in_unit (p : t) (op : VolumeOp) :
  in_unit_interval (volume p) = true -> is_nan (volume_arg op) = false ->
  in_unit_interval (volume (apply_volume_op p op)) = true.
Proof.
  intros Hp Hop. destruct op as [v|d]; cbn in *.
  - by apply clamp_correct.
  - apply clamp_correct.
    destruct (in_unit_interval_finite _ Hp). by apply SFadd_not_nan.
Qed.

Lemma volume_trace_in_unit (ops : list VolumeOp) : forall p : t,
  in_unit_interval (volume p) = true ->
  Forall (fun op => is_nan (volume_arg op) = false) ops ->
  Forall (fun p' => in_unit_interval (volume p') = true) (volume_trace p ops).
Proof.
  induction ops as [|op ops IH]; intros p Hp Hops; cbn; [constructor|].
  apply Forall_cons_1 in Hops as [Hop Hops].
  pose proof (apply_volume_op_in_unit p op Hp Hop).
  constructor; [done | by apply IH].
Qed.
End VolumeFacts.

Section VolumeClaims.
Import MusicPlayer.

(** C10: for every number [v] (NaN, which is not one, excluded),
    [setVolume(v)] stores [v] clamped into [0, 1], that is
    [Math.max(0, Math.min(1, v))]; [adjustVolume(delta)] is
    [setVolume(volume + delta)]; and after any sequence of [setVolume] and
    [adjustVolume] calls on a new player the volume lies in [0, 1]. *)
Theorem volume_clamped (p : t) (v delta : spec_float) (ops : list VolumeOp) :
  is_nan v = false ->
  Forall (fun op => is_nan (volume_arg op) = false) ops ->
  volume (setVolume p v) = Math_max f_zero (Math_min f_one v) /\
  SFeqb (volume (setVolume p v)) (clamp01 v) = true /\
  in_unit_interval (volume (setVolume p v)) = true /\
  adjustVolume p delta = setVolume p (SFadd prec emax (volume p) delta) /\
  Forall (fun p' => in_unit_interval (volume p') = true)
    (volume_trace initial ops).
Proof.
  intros Hv Hops. destruct (clamp_correct v Hv) as [Heq Hin].
  repeat split; try done.
  by apply volume_trace_in_unit.
Qed.

Lemma volume_clamped_witness :
  let ops := [OpAdjustVolume Sample.tenth; OpAdjustVolume Sample.minus_tenth;
              OpSetVolume (S754_infinity true); OpAdjustVolume Sample.tenth;
              OpSetVolume Sample.two_and_a_half] in
  volume (setVolume initial Sample.two_and_a_half) = f_one /\
  Forall (fun p' => in_unit_interval (volume p') = true)
    (volume_trace initial ops).
Proof.
  intros ops.
  destruct (volume_clamped initial Sample.two_and_a_half Sample.tenth ops)
    as (Hset & _ & _ & _ & Htrace).
  - reflexivity.
  - repeat constructor.
  - split; [by rewrite Hset | exact Htrace].
Defined.

(** The volume keys: 0.1 up from full volume stays at 1, and 0.1 down
    from there gives the double nearest to 0.9. *)
Example volume_keys :
  volume (adjustVolume initial Sample.tenth) = f_one /\
  volume (adjustVolume initial Sample.minus_tenth)
    = S754_finite false 8106479329266893 (-53).
Proof. split; reflexivity. Qed.

(** NaN, which [Math.min] and [Math.max] pass through, is stored as it
    is. *)
Example setVolume_nan : volume (setVolume initial S754_nan) = S754_nan.
Proof. reflexivity. Qed.
End VolumeClaims.

(** ** The response cache *)

Section CacheClaims.
Import APIManager.

Lemma cache_hit_fresh (api : t) (key : string) (now : Z) (e : CacheEntry) :
  cache api !! key = Some e -> now - timestamp e < cacheTimeout ->
  cache_hit api key now = Some (data e).
Proof.
  intros He Hage. unfold cache_hit. rewrite He.
  destruct (Z.ltb_spec (now - timestamp e) cacheTimeout); [done|lia].
Qed.

Lemma cache_hit_stale (api : t) (key : string) (now : Z) (e : CacheEntry) :
  cache api !! key = Some e -> cacheTimeout <= now - timestamp e ->
  cache_hit api key now = None.
Proof.
  intros He Hage. unfold cache_hit. rewrite He.
  destruct (Z.ltb_spec (now - timestamp e) cacheTimeout); [lia|done].
Qed.

(** A miss stays a miss while the cache is the same and the clock does
    not run backwards. *)
Lemma cache_hit_None_later (api api' : t) (key : string) (now now' : Z) :
  cache api' = cache api -> now <= now' ->
  cache_hit api key now = None -> cache_hit api' key now' = None.
Proof.
  intros Hc Hle. unfold cache_hit. rewrite Hc.
  destruct (cache api !! key) as [e|]; [|done].
  destruct (Z.ltb_spec (now - timestamp e) cacheTimeout); [done|].
  destruct (Z.ltb_spec (now' - timestamp e) cacheTimeout); [lia|done].
Qed.

(** On a miss the loader is invoked: exactly one request is issued. *)
Lemma fetchWithCache_miss (api : t) (url options : string) (env : Env) :
  cache_hit api (cacheKey url options) (now_check env) = None ->
  fetched (fetchWithCache api url options env).2
  = fetched api ++ [(url, options)].
Proof.
  intros Hmiss. unfold fetchWithCache. rewrite Hmiss.
  destruct (response env) as [msg|[] status [d|]]; reflexivity.
Qed.

(** On a hit nothing is issued and nothing changes. *)
Lemma fetchWithCache_hit (api : t) (url options : string) (env : Env) (d : Json) :
  cache_hit api (cacheKey url options) (now_check env) = Some d ->
  fetchWithCache api url options env = (inr d, api).
Proof. intros Hhit. unfold fetchWithCache. by rewrite Hhit. Qed.

(** A loader that succeeds has its value stored under the key. *)
Lemma fetchWithCache_stores (api api1 : t) (url options : string) (env : Env)
    (d : Json) :
  cache_hit api (cacheKey url options) (now_check env) = None ->
  fetchWithCache api url options env = (inr d, api1) ->
  cache api1 !! cacheKey url options = Some (mkEntry d (now_store env)).
Proof.
  intros Hmiss. unfold fetchWithCache. rewrite Hmiss.
  destruct (response env) as [msg|[] status [d'|]]; cbn; try done.
  intros [= <- <-]. cbn. apply lookup_insert_eq.
Qed.

(** C5: while the entry stored for a key is younger than the 5-minute
    TTL, [fetchWithCache] returns its value, issues no request and leaves
    the cache as it is; once its age has reached the TTL, the request is
    issued again. *)
Theorem cache_ttl (api : t) (url options : string) (env : Env) (e : CacheEntry) :
  cache api !! cacheKey url options = Some e ->
  cacheTimeout = 300000 /\
  (now_check env - timestamp e < cacheTimeout ->
     fetchWithCache api url options env = (inr (data e), api)) /\
  (cacheTimeout <= now_check env - timestamp e ->
     fetched (fetchWithCache api url options env).2
     = fetched api ++ [(url, options)]).
Proof.
  intros He. split; [reflexivity|]. split; intros Hage.
  - apply fetchWithCache_hit. by apply cache_hit_fresh.
  - apply fetchWithCache_miss. by eapply cache_hit_stale.
Qed.

(** Two calls for the same key after a successful store at [now_store]:
    within the TTL the second call answers from the cache, after it the
    loader runs a second time. *)
Lemma cache_second_call (api api1 : t) (url options : string) (env env2 : Env)
    (d : Json) :
  cache_hit api (cacheKey url options) (now_check env) = None ->
  fetchWithCache api url options env = (inr d, api1) ->
  (now_check env2 - now_store env < cacheTimeout ->
     fetchWithCache api1 url options env2 = (inr d, api1)) /\
  (cacheTimeout <= now_check env2 - now_store env ->
     fetched (fetchWithCache api1 url options env2).2
     = fetched api ++ [(url, options); (url, options)]).
Proof.
  intros Hmiss Hfirst.
  pose proof (fetchWithCache_stores _ _ _ _ _ _ Hmiss Hfirst) as Hstored.
  pose proof (fetchWithCache_miss _ url options env Hmiss) as Hlog.
  rewrite Hfirst in Hlog. cbn in Hlog.
  split; intros Hage.
  - apply fetchWithCache_hit.
    by rewrite (cache_hit_fresh _ _ _ _ Hstored).
  - rewrite fetchWithCache_miss by (by eapply cache_hit_stale).
    rewrite Hlog, <- app_assoc. reflexivity.
Qed.

Lemma cache_ttl_witness :
  let env := mkEnv 1060000 (FetchRejected "offline") 1060001 in
  fetchWithCache Sample.warm_api "/api/trending" "{}" env
  = (inr (JOther "cached"), Sample.warm_api).
Proof.
  intros env.
  destruct (cache_ttl Sample.warm_api "/api/trending" "{}" env
              (mkEntry (JOther "cached") 1000000)) as (_ & Hhit & _).
  - reflexivity.
  - apply Hhit. reflexivity.
Defined.

(** A loader called twice one second apart is fetched once; called again
    five minutes after the store, it is fetched a second time. *)
Example cache_five_minutes :
  let first := fetchWithCache (new "http://localhost:3000") "/api/trending" "{}"
                 (mkEnv 1000 (FetchResponse true 200 (Some (JOther "v1"))) 1200) in
  let second := fetchWithCache first.2 "/api/trending" "{}"
                 (mkEnv 2200 (FetchResponse true 200 (Some (JOther "v2"))) 2300) in
  let third := fetchWithCache second.2 "/api/trending" "{}"
                 (mkEnv 301200 (FetchResponse true 200 (Some (JOther "v3"))) 301300) in
  first.1 = inr (JOther "v1") /\ second.1 = inr (JOther "v1") /\
  length (fetched second.2) = 1%nat /\
  third.1 = inr (JOther "v3") /\ length (fetched third.2) = 2%nat.
Proof. vm_compute. repeat split. Qed.

(** [fetchWithCache] rejects only after its request was issued and
    failed, and then the cache is the one it started from. *)
Lemma fetchWithCache_rejected (api api1 : t) (url options : string) (env : Env)
    (err : JSError) :
  fetchWithCache api url options env = (inl err, api1) ->
  cache_hit api (cacheKey url options) (now_check env) = None /\
  api1 = log_fetch api url options /\
  match response env with
  | FetchRejected msg => err = NetworkError msg
  | FetchResponse false status _ => err = HttpError status
  | FetchResponse true _ None => err = SyntaxError
  | FetchResponse true _ (Some _) => False
  end.
Proof.
  unfold fetchWithCache.
  destruct (cache_hit api _ _) as [d|]; [done|].
  destruct (response env) as [msg|[] status [d|]]; cbn; try done;
    by intros [= <- <-].
Qed.

(** C9: when the loader behind [fetchWithCache] is invoked (there is no
    fresh entry for the key) and fails (the fetch rejects, the status is
    not ok, or the body does not parse), the call rejects with that
    failure and the cache is left as it was, so no entry is stored; a
    later call for the same key issues the request again, and a value it
    gives is the body of the answer to that request. *)
Theorem failure_not_cached (api : t) (url options : string)
    (env env2 : Env) (err : JSError) :
  cache_hit api (cacheKey url options) (now_check env) = None ->
  loader_failure (response env) = Some err ->
  now_check env <= now_check env2 ->
  let first := fetchWithCache api url options env in
  let second := fetchWithCache first.2 url options env2 in
  first.1 = inl err /\
  cache first.2 = cache api /\
  fetched first.2 = fetched api ++ [(url, options)] /\
  fetched second.2 = fetched api ++ [(url, options); (url, options)] /\
  (forall d, second.1 = inr d ->
     exists status, response env2 = FetchResponse true status (Some d)) /\
  (forall err2, loader_failure (response env2) = Some err2 ->
     second.1 = inl err2 /\ cache second.2 = cache api).
Proof.
  intros Hmiss Hfail Hclock first second.
  assert (Hfirst : first = (inl err, log_fetch api url options)).
  { subst first. unfold fetchWithCache. rewrite Hmiss.
    destruct (response env) as [msg|[] status [d|]]; cbn in *;
      by simplify_eq. }
  assert (Hmiss2 : cache_hit (log_fetch api url options) (cacheKey url options)
                     (now_check env2) = None)
    by (by apply (cache_hit_None_later api _ _ (now_check env))).
  subst second. rewrite Hfirst. cbn [fst snd].
  unfold fetchWithCache. rewrite Hmiss2.
  repeat apply conj; try reflexivity.
  - destruct (response env2) as [msg|[] status [d|]]; cbn;
      by rewrite <- app_assoc.
  - intros d. destruct (response env2) as [msg|[] status [d'|]]; cbn;
      try done.
    intros [= ->]. by exists status.
  - intros err2.
    destruct (response env2) as [msg|[] status [d'|]]; cbn; try done;
      by intros [= ->].
Qed.

Lemma failure_not_cached_witness :
  let api := new "http://localhost:3000" in
  let env := mkEnv 1000 (FetchResponse false 503 None) 1001 in
  let env2 := mkEnv 1500 (FetchResponse true 200 (Some (JOther "v"))) 1501 in
  (fetchWithCache api "/api/trending" "{}" env).1 = inl (HttpError 503) /\
  fetched (fetchWithCache (fetchWithCache api "/api/trending" "{}" env).2
             "/api/trending" "{}" env2).2
  = [("/api/trending", "{}"); ("/api/trending", "{}")].
Proof.
  intros api env env2.
  destruct (failure_not_cached api "/api/trending" "{}" env env2
              (HttpError 503)) as (H1 & _ & _ & H2 & _).
  - reflexivity.
  - reflexivity.
  - vm_compute. discriminate.
  - split; [exact H1 | exact H2].
Defined.
End CacheClaims.

(** ** The aggregator *)

Section SearchClaims.
Import APIManager.
Variable encodeURIComponent : string -> string.

Lemma tail_drop {A} (l : list A) (k : nat) : tail (drop k l) = drop (S k) l.
Proof.
  revert l. induction k as [|k IH]; intros [|x l]; cbn; done.
Qed.

Lemma head_drop {A} (l : list A) (k : nat) : head (drop k l) = l !! k.
Proof. by rewrite head_lookup, lookup_drop, Nat.add_0_r. Qed.

(** One round over the three result lists, [k] rounds in. *)
Lemma round_at (y s a : list Track) (k : nat) :
  omap head [drop k y; drop k s; drop k a]
  = option_list (y !! k) ++ option_list (s !! k) ++ option_list (a !! k).
Proof.
  cbn. rewrite !head_drop.
  by destruct (y !! k), (s !! k), (a !! k).
Qed.

(** The loop of [mergeResults] from turn [k] on. *)
Lemma merge_loop (r : Results) (n : nat) : forall (k : nat) (merged : list Track),
  fold_left (merge_step r) (seq k n) merged
  = merged ++ rounds n [drop k (youtube r); drop k (soundcloud r);
                        drop k (audius r)].
Proof.
  induction n as [|n IH]; intros k merged; cbn [seq fold_left rounds].
  - by rewrite app_nil_r.
  - rewrite IH. unfold merge_step. rewrite round_at.
    cbn [fmap list_fmap]. rewrite !tail_drop, <- !app_assoc. reflexivity.
Qed.

(** [mergeResults] is the round-robin interleaving of the three lists. *)
Lemma mergeResults_round_robin (r : Results) :
  mergeResults r = round_robin [youtube r; soundcloud r; audius r].
Proof.
  unfold mergeResults, round_robin. rewrite merge_loop.
  cbn [fmap list_fmap foldr app]. rewrite !drop_0, Nat.max_0_r. reflexivity.
Qed.

(** The search functions catch every error: they are always fulfilled,
    with what the provider contributes. *)
Lemma searchYouTube_fulfilled (api : t) (query : string) (env : Env) :
  let f := fetchWithCache api (youtube_url encodeURIComponent api query)
             "{}" env in
  searchYouTube encodeURIComponent api query env
  = (inr (youtube_results f.1), f.2).
Proof.
  unfold searchYouTube.
  destruct (fetchWithCache api _ "{}" env) as [[e|[]] api']; reflexivity.
Qed.

Lemma searchSoundCloud_fulfilled (api : t) (query : string) (env : Env) :
  let f := fetchWithCache api (soundcloud_url encodeURIComponent api query)
             "{}" env in
  searchSoundCloud encodeURIComponent api query env
  = (inr (soundcloud_results f.1), f.2).
Proof.
  unfold searchSoundCloud.
  destruct (fetchWithCache api _ "{}" env) as [[e|[| c | |]] api'];
    try reflexivity.
  cbn. by destruct (mapM soundcloud_track c).
Qed.

Lemma searchAudius_fulfilled (api : t) (query : string) (env : Env) :
  let f := fetchWithCache api (audius_url encodeURIComponent query) "{}" env in
  searchAudius encodeURIComponent api query env
  = (inr (audius_results f.1), f.2).
Proof.
  unfold searchAudius.
  destruct (fetchWithCache api _ "{}" env) as [[e|[| | d |]] api'];
    try reflexivity.
  cbn. by destruct (mapM audius_track d).
Qed.

(** C6: [search(query, 'all')] is always fulfilled, whatever happens to
    the three requests: its value is the round-robin interleaving, in the
    order YouTube, SoundCloud, Audius, of what the three providers
    contribute, and a provider whose request failed contributes the empty
    list; with lists [[a1,a2]], a failing second provider and [[c1]] the
    result is [[a1,c1,a2]]. *)
Theorem search_all_partial_failure (api : t) (query : string) (ey es ea : Env) :
  let fy := fetchWithCache api (youtube_url encodeURIComponent api query)
              "{}" ey in
  let fs := fetchWithCache fy.2 (soundcloud_url encodeURIComponent fy.2 query)
              "{}" es in
  let fa := fetchWithCache fs.2 (audius_url encodeURIComponent query) "{}" ea in
  search encodeURIComponent api query "all" ey es ea
  = (inr (round_robin [youtube_results fy.1; soundcloud_results fs.1;
                       audius_results fa.1]), fa.2) /\
  (forall e : JSError,
     youtube_results (inl e) = [] /\ soundcloud_results (inl e) = [] /\
     audius_results (inl e) = []) /\
  (forall a1 a2 c1 : Track,
     round_robin [[a1; a2]; []; [c1]] = [a1; c1; a2]).
Proof.
  intros fy fs fa. split; [|by split].
  unfold search.
  change (wanted "all" "youtube") with true.
  change (wanted "all" "soundcloud") with true.
  change (wanted "all" "audius") with true. cbv iota.
  rewrite searchYouTube_fulfilled. fold fy. cbn [settled].
  rewrite searchSoundCloud_fulfilled. fold fs. cbn [settled].
  rewrite searchAudius_fulfilled. fold fa. cbn [settled].
  by rewrite mergeResults_round_robin.
Qed.
End SearchClaims.

(** With YouTube answering two items, SoundCloud down and Audius
    answering one, the search gives the first YouTube track, the Audius
    track, then the second YouTube track. *)
Example search_with_soundcloud_down :
  (APIManager.search (fun q => q) (APIManager.new "http://localhost:3000") "lofi" "all"
     (APIManager.mkEnv 10
        (APIManager.FetchResponse true 200
           (Some (APIManager.JYouTube
                    [APIManager.mkYouTubeItem "a1" "A1" "ch" None 100 "u1";
                     APIManager.mkYouTubeItem "a2" "A2" "ch" None 200 "u2"])))
        20)
     (APIManager.mkEnv 11 (APIManager.FetchRejected "connection refused") 21)
     (APIManager.mkEnv 12
        (APIManager.FetchResponse true 200
           (Some (APIManager.JAudius
                    [APIManager.mkAudiusTrack "c1" "C1" (Some "dj") None 300])))
        22)).1
  = inr [mkTrack "a1" "A1" "ch" None 100 "youtube" "u1";
         mkTrack "c1" "C1" "dj" None 300 "audius" "https://audius.co/tracks/c1";
         mkTrack "a2" "A2" "ch" None 200 "youtube" "u2"].
Proof. vm_compute. reflexivity. Qed.

(** ** Search history *)

Section SearchHistoryClaims.
Import DatabaseManager.
Implicit Types l : list (Z * SearchEntry).
Implicit Types seen : gset string.

#[local] Instance index_le_total : Total index_le.
Proof. intros [i a] [j b]. unfold index_le. cbn. lia. Qed.

#[local] Instance index_le_trans : Transitive index_le.
Proof. intros [i a] [j b] [k c]. unfold index_le. cbn. lia. Qed.

Lemma index_le_refl (x : Z * SearchEntry) : index_le x x.
Proof. unfold index_le. lia. Qed.

Lemma StronglySorted_reverse_flip {A} (R : relation A) (l : list A) :
  StronglySorted R l -> StronglySorted (flip R) (reverse l).
Proof.
  induction 1 as [|x l Hl IH Hx]; [rewrite reverse_nil; constructor|].
  rewrite reverse_cons. apply StronglySorted_app_2.
  - intros x1 x2 Hx1 Hx2%list_elem_of_singleton. subst x2.
    rewrite elem_of_reverse in Hx1.
    rewrite Forall_forall in Hx. by apply Hx.
  - done.
  - repeat constructor.
Qed.

Lemma StronglySorted_sublist {A} (R : relation A) (l1 l2 : list A) :
  l1 `sublist_of` l2 -> StronglySorted R l2 -> StronglySorted R l1.
Proof.
  induction 1 as [|x l1 l2 Hsub IH|x l1 l2 Hsub IH];
    rewrite ?StronglySorted_cons; [done| |intros [_ ?]; by apply IH].
  intros [Hx Hl2]. split; [|by apply IH].
  rewrite Forall_forall in *. intros y Hy. apply Hx.
  by eapply elem_of_sublist.
Qed.

(** The entries of the index read backwards: most recent first, and
    exactly the stored ones. *)
Lemma index_reversed (db : t) :
  StronglySorted (flip index_le) (reverse (index_getAll db)) /\
  (forall s, s ∈ reverse (index_getAll db)
             <-> searchHistory db !! s.1 = Some s.2).
Proof.
  unfold index_getAll. split.
  - apply StronglySorted_reverse_flip.
    apply (StronglySorted_merge_sort index_le).
  - intros s. rewrite elem_of_reverse, merge_sort_Permutation.
    apply elem_of_map_to_list'.
Qed.

(** The [forEach] loop computes [keep_first]. *)
Lemma fold_dedup l : forall seen (acc : list (Z * SearchEntry)),
  (fold_left dedup_step l (seen, acc)).2 = acc ++ keep_first seen l.
Proof.
  induction l as [|s l IH]; intros seen acc; cbn.
  - by rewrite app_nil_r.
  - case_decide; rewrite IH; [done|]. by rewrite <- app_assoc.
Qed.

Lemma uniqueSearches_keep_first l :
  uniqueSearches l = keep_first ∅ (reverse l).
Proof. unfold uniqueSearches. by rewrite fold_dedup. Qed.

Lemma keep_first_sublist l : forall seen, keep_first seen l `sublist_of` l.
Proof.
  induction l as [|s l IH]; intros seen; cbn; [constructor|].
  case_decide; [apply sublist_cons | apply sublist_skip]; apply IH.
Qed.

Lemma keep_first_unseen l : forall seen s,
  s ∈ keep_first seen l -> query s.2 ∉ seen.
Proof.
  induction l as [|s' l IH]; intros seen s; cbn.
  - by intros ?%elem_of_nil.
  - case_decide as Hseen; [apply IH|].
    intros [->|Hin%IH]%elem_of_cons; [done|set_solver].
Qed.

Lemma keep_first_NoDup l : forall seen,
  NoDup ((fun s => query s.2) <$> keep_first seen l).
Proof.
  induction l as [|s l IH]; intros seen; cbn; [constructor|].
  case_decide; [apply IH|]. rewrite fmap_cons. constructor; [|apply IH].
  intros (s' & Hq & Hin%keep_first_unseen)%list_elem_of_fmap.
  set_solver.
Qed.

(** Every query that was not seen before keeps one entry. *)
Lemma keep_first_complete l : forall seen s,
  s ∈ l -> query s.2 ∉ seen ->
  exists s', s' ∈ keep_first seen l /\ query s'.2 = query s.2.
Proof.
  induction l as [|s0 l IH]; intros seen s; cbn.
  - by intros ?%elem_of_nil.
  - intros [->|Hin]%elem_of_cons Hseen.
    + case_decide; [done|]. exists s0. split; [by left|done].
    + case_decide.
      * by apply IH.
      * destruct (decide (query s.2 = query s0.2)) as [Heq|Hne].
        -- exists s0. split; [by left|done].
        -- destruct (IH ({[query s0.2]} ∪ seen) s Hin) as (s' & ? & ?).
           { apply not_elem_of_union. by rewrite not_elem_of_singleton. }
           exists s'. split; [by right|done].
Qed.

(** In a list ordered most recent first, the entry kept for a query is
    at least as recent as every entry with that query. *)
Lemma keep_first_most_recent l : forall seen s s',
  StronglySorted (flip index_le) l ->
  s ∈ keep_first seen l -> s' ∈ l -> query s'.2 = query s.2 ->
  index_le s' s.
Proof.
  induction l as [|s0 l IH]; intros seen s s' Hsorted; cbn.
  - by intros ?%elem_of_nil.
  - apply StronglySorted_cons in Hsorted as [Hs0 Hl].
    rewrite Forall_forall in Hs0.
    case_decide as Hseen.
    + intros Hs [->|Hs']%elem_of_cons Hq.
      * apply keep_first_unseen in Hs. congruence.
      * by eapply IH.
    + intros Hs Hs' Hq.
      apply elem_of_cons in Hs as [Hs|Hs]; apply elem_of_cons in Hs' as [Hs'|Hs'].
      * subst. apply index_le_refl.
      * subst. by apply Hs0.
      * subst. apply keep_first_unseen in Hs. set_solver.
      * by eapply IH.
Qed.

Lemma slice0_take {A} (l : list A) (n : Z) :
  0 <= n -> JSArray.slice0 l n = take (Z.to_nat n) l.
Proof.
  intros Hn. unfold JSArray.slice0, JSArray.actualStart.
  destruct (Z.ltb_spec n 0); [lia|].
  destruct (Z.le_gt_cases n (Z.of_nat (length l))).
  - by rewrite Z.min_l.
  - rewrite Z.min_r, Nat2Z.id by lia.
    rewrite !take_ge; [done|lia..].
Qed.

(** C8: [getSearchHistory(limit)], with [limit] 10 when left out and not
    negative, returns stored entries with pairwise distinct queries; the
    entry returned for a query is its most recent occurrence; the entries
    are ordered most recent first; there are at most [limit] of them, and
    a stored query is missing from the result only when the result is
    full and holds nothing older than it. After "a", "b", "a", "c" the
    result with limit 10 reads "c", "a", "b". *)
Theorem search_history_dedup (db : t) (limit : option Z) :
  0 <= default 10 limit ->
  exists res : list (Z * SearchEntry),
    getSearchHistory db limit = Fulfilled res /\
    Z.of_nat (length res) <= default 10 limit /\
    NoDup ((fun s => query s.2) <$> res) /\
    (forall s, s ∈ res -> searchHistory db !! s.1 = Some s.2) /\
    (forall s id e, s ∈ res -> searchHistory db !! id = Some e ->
       query e = query s.2 -> index_le (id, e) s) /\
    StronglySorted (fun a b => index_le b a) res /\
    (forall id e, searchHistory db !! id = Some e ->
       (exists s, s ∈ res /\ query s.2 = query e) \/
       (Z.of_nat (length res) = default 10 limit /\
        forall s, s ∈ res -> index_le (id, e) s)) /\
    Sample.queries
      (getSearchHistory (Sample.searched 100 200 300 400) (Some 10))
    = ["c"; "a"; "b"].
Proof.
  intros Hlimit. set (n := default 10 limit) in *.
  destruct (index_reversed db) as [Hsorted Hstored].
  set (L := reverse (index_getAll db)) in *.
  exists (take (Z.to_nat n) (keep_first ∅ L)).
  assert (Hsub : take (Z.to_nat n) (keep_first ∅ L) `sublist_of` L).
  { etrans; [apply sublist_take | apply keep_first_sublist]. }
  assert (Hall : StronglySorted (flip index_le) (keep_first ∅ L)).
  { eapply StronglySorted_sublist; [apply keep_first_sublist | done]. }
  split; [|split; [|split; [|split; [|split; [|split; [|split]]]]]].
  - unfold getSearchHistory. fold n.
    by rewrite slice0_take, uniqueSearches_keep_first.
  - rewrite length_take. lia.
  - eapply sublist_NoDup; [|apply fmap_sublist, sublist_take].
    apply (keep_first_NoDup L ∅).
  - intros s Hs. apply Hstored. by eapply elem_of_sublist.
  - intros s id e Hs He Hq.
    apply (keep_first_most_recent L ∅); [done| | |done].
    + eapply elem_of_sublist; [done | apply sublist_take].
    + by apply (Hstored (id, e)).
  - eapply StronglySorted_sublist; [apply sublist_take | done].
  - intros id e He.
    destruct (keep_first_complete L ∅ (id, e)) as (s & Hs & Hq);
      [by apply (Hstored (id, e)) | set_solver |].
    rewrite <- (take_drop (Z.to_nat n) (keep_first ∅ L)) in Hs, Hall.
    apply elem_of_app in Hs as [Hs|Hs]; [left; by exists s|right].
    split.
    + rewrite length_take.
      assert (length (drop (Z.to_nat n) (keep_first ∅ L)) <> 0)%nat
        by (by destruct (drop _ _); [apply elem_of_nil in Hs|]).
      rewrite length_drop in *. lia.
    + intros r Hr.
      pose proof (StronglySorted_app_1_elem_of _ _ _ r s Hall Hr Hs) as Hrs.
      etrans; [|exact Hrs].
      apply (keep_first_most_recent L ∅); [done| | |done].
      * eapply elem_of_sublist; [done | apply sublist_drop].
      * by apply (Hstored (id, e)).
  - vm_compute. reflexivity.
Qed.

Lemma search_history_dedup_witness :
  exists res : list (Z * SearchEntry),
    getSearchHistory (Sample.searched 100 100 250 250) None = Fulfilled res /\
    (fun s => query s.2) <$> res = ["c"; "a"; "b"].
Proof.
  destruct (search_history_dedup (Sample.searched 100 100 250 250) None)
    as (res & Hres & _).
  - cbn. lia.
  - exists res. split; [exact Hres|].
    revert Hres. vm_compute. by intros [= <-].
Defined.
End SearchHistoryClaims.

(** ** Playlists *)

Section PlaylistClaims.
Import DatabaseManager.

Lemma to_key_key_value (k : Key) : to_key (key_value k) = Some k.
Proof. by destruct k. Qed.

(** Field by field, the merged record has [modified = now], then the
    fields of [updates], then those of the existing record. *)
Lemma merged_lookup (playlist : option Obj) (updates : Obj) (now : Z)
    (f : string) :
  merged playlist updates now !! f =
    if decide (f = "modified") then Some (JNum now)
    else match updates !! f with
         | Some v => Some v
         | None => default ∅ playlist !! f
         end.
Proof.
  unfold merged. case_decide as Hf.
  - subst f. apply lookup_insert_eq.
  - rewrite lookup_insert_ne by done. rewrite lookup_union.
    destruct (updates !! f), (default ∅ playlist !! f); reflexivity.
Qed.

(** [put] keeps every record under the key found at its key path. *)
Lemma put_playlist_keys_inline (db : t) (value : Obj) :
  keys_inline db -> keys_inline (put_playlist db value).2.
Proof.
  intros Hinv. unfold put_playlist.
  assert (Hgen : keys_inline
            (set_playlists db
               (<[inl (playlistsNext db) :=
                    <["id" := JNum (playlistsNext db)]> value]> (playlists db))
               (playlistsNext db + 1))).
  { intros k r. cbn. destruct (decide (k = inl (playlistsNext db))) as [->|Hne].
    - rewrite lookup_insert_eq. intros [= <-]. apply lookup_insert_eq.
    - rewrite lookup_insert_ne by done. apply Hinv. }
  destruct (value !! "id") as [v|] eqn:Hid; [|exact Hgen].
  destruct v; cbn; try exact Hgen; try exact Hinv.
  - intros k r. cbn. destruct (decide (k = inl n)) as [->|Hne].
    + rewrite lookup_insert_eq. by intros [= <-].
    + rewrite lookup_insert_ne by done. apply Hinv.
  - intros k r. cbn. destruct (decide (k = inr s)) as [->|Hne].
    + rewrite lookup_insert_eq. by intros [= <-].
    + rewrite lookup_insert_ne by done. apply Hinv.
Qed.

(** For a value that is a key, [updatePlaylist] hands the merged record
    to [store.put] and is rejected with the error that call throws. *)
Lemma updatePlaylist_inactive (db : t) (k : Key) (updates : Obj) (now : Z) :
  updatePlaylist db (key_value k) updates now
  = (Rejected (Some TransactionInactiveError), db,
     [merged (playlists db !! k) updates now]).
Proof. unfold updatePlaylist, getPlaylist. by rewrite to_key_key_value. Qed.

(** No path of [updatePlaylist] produces a not-found error. *)
Lemma updatePlaylist_never_NotFound (db : t) (id : JSValue) (updates : Obj)
    (now : Z) :
  (updatePlaylist db id updates now).1.1 <> Rejected (Some NotFoundError).
Proof.
  unfold updatePlaylist, getPlaylist.
  destruct (to_key id) as [k|]; done.
Qed.

(** C2: [updatePlaylist] on a key that holds no playlist does not fail
    with a not-found error. On the empty database [getPlaylist(7)]
    resolves with [undefined] and [updatePlaylist(7, {name})] hands
    [{name, modified}] to [store.put]; the error it is rejected with is
    not a not-found error, and it is the one it is rejected with for the
    key of a stored playlist. *)
Lemma update_missing_playlist_not_rejected_as_missing :
  getPlaylist empty (JNum 7) = Fulfilled None /\
  (updatePlaylist empty (JNum 7) Sample.rename 5000).2
    = [{[ "name" := JStr "Road trip"; "modified" := JNum 5000 ]}] /\
  (updatePlaylist empty (JNum 7) Sample.rename 5000).1.1
    <> Rejected (Some NotFoundError) /\
  (updatePlaylist empty (JNum 7) Sample.rename 5000).1.1
    = (updatePlaylist Sample.mix_db (JNum 1) Sample.rename 5000).1.1.
Proof. split; [|split; [|split]]; vm_compute; by try reflexivity. Qed.

(** C2 (amended): [updatePlaylist(id, updates)] never fails with a
    not-found error, whether or not a playlist is stored under [id]. It
    reads the record under [id] ([undefined] when there is none), and the
    record it builds and hands to [store.put] is
    [{...record, ...updates, modified: now}]: the fields of [updates]
    merged over those of the existing record, with [modified] set to the
    current time. *)
Theorem update_playlist_merges (db : t) (k : Key) (updates : Obj) (now : Z) :
  (forall id,
     (updatePlaylist db id updates now).1.1 <> Rejected (Some NotFoundError)) /\
  getPlaylist db (key_value k) = Fulfilled (playlists db !! k) /\
  (updatePlaylist db (key_value k) updates now).2
    = [merged (playlists db !! k) updates now] /\
  (forall f,
     merged (playlists db !! k) updates now !! f =
       if decide (f = "modified") then Some (JNum now)
       else match updates !! f with
            | Some v => Some v
            | None => default ∅ (playlists db !! k) !! f
            end).
Proof.
  split; [intros id; apply updatePlaylist_never_NotFound|].
  split; [unfold getPlaylist; by rewrite to_key_key_value|].
  split; [by rewrite updatePlaylist_inactive|].
  intros f. apply merged_lookup.
Qed.

(** Renaming the playlist "Mix": the record handed to [store.put] has
    the new name, the other fields as they were, and [modified] at the
    time of the update. *)
Lemma update_playlist_merges_witness :
  (updatePlaylist Sample.mix_db (JNum 1) Sample.rename 5000).2
  = [ {[ "id" := JNum 1; "name" := JStr "Road trip";
         "description" := JStr "For the road"; "tracks" := JTracks [];
         "created" := JNum 1000; "modified" := JNum 5000 ]} ].
Proof.
  destruct (update_playlist_merges Sample.mix_db (inl 1) Sample.rename 5000)
    as (_ & _ & Hput & _).
  etrans; [exact Hput|]. vm_compute. reflexivity.
Defined.

(** The update itself does not take place: the call is rejected and
    the playlist is as before. *)
Example rename_mix :
  updatePlaylist Sample.mix_db (JNum 1) Sample.rename 5000
  = (Rejected (Some TransactionInactiveError), Sample.mix_db,
     [merged (Some Sample.mix_record) Sample.rename 5000]).
Proof. vm_compute. reflexivity. Qed.
End PlaylistClaims.

(** ** Downloads *)

Section DownloadClaims.
Import DatabaseManager.

(** A transaction either commits all its requests or leaves the
    database as it was, and it fires [error] exactly when one of its
    requests fails. *)
Lemma transaction_two (db : t) (r0 r1 : Request) (f : Faults) :
  transaction db [r0; r1] f =
    match request_fault f 0, request_fault f 1, commit_fault f with
    | Some e, _, _ => (TxError e, db)
    | None, Some e, _ => (TxError e, db)
    | None, None, Some e => (TxAbort e, db)
    | None, None, None => (TxComplete, exec (exec db r0) r1)
    end.
Proof.
  unfold transaction. cbn.
  destruct (request_fault f 0), (request_fault f 1), (commit_fault f);
    reflexivity.
Qed.


(** The second of the two writes fails: the promise is rejected and
    neither the blob nor the download record is there. *)
Example second_write_fails :
  let saved := saveOfflineTrack empty Sample.t0 Sample.blob 10 11
                 Sample.second_fails in
  saved.1 = Rejected None /\
  offlineTracks saved.2 = ∅ /\ downloads saved.2 = ∅.
Proof. vm_compute. repeat split. Qed.

Example both_writes_succeed :
  let saved := saveOfflineTrack empty Sample.t0 Sample.blob 10 11 no_faults in
  saved.1 = Fulfilled true /\
  offlineTracks saved.2
    = {[ "youtube_t0" := mkOfflineTrack Sample.t0 "youtube_t0" Sample.blob 10 ]} /\
  downloads saved.2
    = {[ "youtube_t0" := mkDownload "youtube_t0" Sample.t0 3 11 ]}.
Proof. split; [|split]; vm_compute; reflexivity. Qed.
End DownloadClaims.

(** * Further properties of the code *)

(** ** The queue: what the mutations keep *)

Section QueueExtras.
Import MusicPlayer.

(** Where the entries end up when the entry at [i] is moved to [j]. *)
Lemma lookup_moved {A} (l : list A) (i j k : nat) (x : A) :
  l !! i = Some x -> (j < length l)%nat ->
  (take j (delete i l) ++ x :: drop j (delete i l)) !! k =
    if decide (k = j) then Some x
    else if decide (k < j)%nat
         then (if decide (k < i)%nat then l !! k else l !! S k)
         else (if decide (k - 1 < i)%nat then l !! (k - 1)%nat else l !! k).
Proof.
  intros Hx Hj. pose proof (lookup_lt_Some _ _ _ Hx) as Hi.
  assert (Hd : length (delete i l) = (length l - 1)%nat)
    by (rewrite length_delete; eauto).
  destruct (decide (k = j)) as [->|Hkj].
  { apply lookup_inserted. lia. }
  destruct (decide (k < j)%nat) as [Hlt|Hge].
  - rewrite lookup_app_l by (rewrite length_take; lia).
    rewrite lookup_take_lt by done.
    case_decide; [by apply list_lookup_delete_lt|].
    apply list_lookup_delete_ge. lia.
  - rewrite lookup_app_r by (rewrite length_take; lia).
    rewrite length_take, Nat.min_l by lia.
    destruct (k - j)%nat as [|m] eqn:Hm; [lia|].
    change ((x :: drop j (delete i l)) !! S m) with (drop j (delete i l) !! m).
    rewrite lookup_drop. replace (j + m)%nat with (k - 1)%nat by lia.
    case_decide; [by apply list_lookup_delete_lt|].
    rewrite list_lookup_delete_ge by lia. f_equal. lia.
Qed.

Lemma get_nat {A} (l : list A) (z : Z) :
  0 <= z -> JSArray.get l z = l !! Z.to_nat z.
Proof. intros H. unfold JSArray.get. destruct (Z.ltb_spec z 0); [lia|done]. Qed.

(** X1: [reorderQueue] keeps the cursor on the track it was on. *)
Theorem reorder_follows_current_track (p : t) (fromIndex toIndex : Z) :
  in_range p fromIndex = true -> in_range p toIndex = true ->
  in_range p (queueIndex p) = true ->
  let p' := reorderQueue p fromIndex toIndex in
  in_range p' (queueIndex p') = true /\
  JSArray.get (queue p') (queueIndex p') = JSArray.get (queue p) (queueIndex p).
Proof.
  intros Hi Hj Hc p'.
  destruct (in_range_lookup _ _ Hi) as [x Hx].
  pose proof (reorderQueue_length p fromIndex toIndex Hi Hj) as Hlen.
  pose proof (reorderQueue_queueIndex p fromIndex toIndex) as Hidx.
  apply in_range_spec in Hi, Hj, Hc.
  pose proof (reorderQueue_queue p fromIndex toIndex x
                (proj2 (in_range_spec _ _) Hj) (proj1 Hi) Hx) as Hq.
  fold p' in Hlen, Hidx, Hq. unfold len in *.
  assert (Hc' : 0 <= queueIndex p' < Z.of_nat (length (queue p'))).
  { rewrite Hlen, Hidx.
    destruct (Z.eqb_spec fromIndex (queueIndex p)),
      (Z.ltb_spec fromIndex (queueIndex p)),
      (Z.geb_spec toIndex (queueIndex p)),
      (Z.gtb_spec fromIndex (queueIndex p)),
      (Z.leb_spec toIndex (queueIndex p)); cbn; lia. }
  split; [by apply in_range_spec|].
  rewrite !get_nat by lia. rewrite Hq, lookup_moved by (done || lia).
  rewrite Hidx.
  destruct (Z.eqb_spec fromIndex (queueIndex p)) as [->|Hne].
  { by rewrite decide_True. }
  destruct (Z.ltb_spec fromIndex (queueIndex p)),
    (Z.geb_spec toIndex (queueIndex p)),
    (Z.gtb_spec fromIndex (queueIndex p)),
    (Z.leb_spec toIndex (queueIndex p)); cbn [andb];
    repeat case_decide; try lia; f_equal; lia.
Qed.

Lemma reorder_follows_current_track_witness :
  let p := Sample.player [Sample.t0; Sample.t1; Sample.t2; Sample.t3] 2 in
  JSArray.get (queue (reorderQueue p 0 3)) (queueIndex (reorderQueue p 0 3))
  = Some (Some Sample.t2).
Proof.
  intros p.
  destruct (reorder_follows_current_track p 0 3 eq_refl eq_refl eq_refl)
    as [_ ->].
  reflexivity.
Defined.

Lemma reorderQueue_fields (p : t) (i j : Z) :
  reorderQueue p i j
  = mk (queue (reorderQueue p i j)) (queueIndex (reorderQueue p i j))
       (shuffle p) (repeatMode p) (volume p) (hasSrc p).
Proof.
  unfold reorderQueue. destruct (JSArray.splice (queue p) i 1 []) as [q1 rem].
  repeat case_match; reflexivity.
Qed.

Lemma insert_back {A} (l : list A) (i : nat) (x : A) :
  l !! i = Some x -> take i (delete i l) ++ x :: drop i (delete i l) = l.
Proof.
  revert i. induction l as [|y l IH]; intros [|i] H; cbn in *; try done.
  - rewrite drop_0. by inversion H.
  - f_equal. by apply IH.
Qed.

(** X2: moving an entry from [i] to [j] and then from [j] back to [i]
    restores the queue and the cursor. *)
Theorem reorder_there_and_back (p : t) (i j : Z) :
  in_range p i = true -> in_range p j = true ->
  reorderQueue (reorderQueue p i j) j i = p.
Proof.
  intros Hi Hj. set (p' := reorderQueue p i j).
  destruct (in_range_lookup _ _ Hi) as [x Hx].
  pose proof (reorderQueue_length p i j Hi Hj) as Hlen.
  pose proof (reorderQueue_queueIndex p i j) as Hidx.
  pose proof (reorderQueue_fields p i j) as Hf.
  pose proof Hi as Hi'%in_range_spec. pose proof Hj as Hj'%in_range_spec.
  pose proof (reorderQueue_queue p i j x Hj (proj1 Hi') Hx) as Hq.
  fold p' in Hlen, Hidx, Hq, Hf.
  assert (Hjd : (Z.to_nat j <= length (delete (Z.to_nat i) (queue p)))%nat).
  { unfold len in *. rewrite length_delete by eauto. lia. }
  assert (Hx' : queue p' !! Z.to_nat j = Some x)
    by (rewrite Hq; by apply lookup_inserted).
  assert (Hi2 : in_range p' i = true) by (apply in_range_spec; lia).
  assert (Hj2 : in_range p' j = true) by (apply in_range_spec; lia).
  rewrite (reorderQueue_fields p' j i).
  rewrite (reorderQueue_queue p' j i x Hi2 (proj1 Hj') Hx').
  rewrite (reorderQueue_queueIndex p' j i).
  replace (delete (Z.to_nat j) (queue p')) with (delete (Z.to_nat i) (queue p))
    by (rewrite Hq; symmetry; by apply delete_inserted).
  rewrite insert_back by done.
  rewrite Hf. cbn [shuffle repeatMode volume hasSrc queueIndex].
  rewrite Hidx. destruct p as [q c s r v h]. cbn [queue queueIndex shuffle repeatMode volume hasSrc] in *.
  f_equal.
  destruct (Z.eqb_spec i c), (Z.ltb_spec i c), (Z.geb_spec j c),
    (Z.gtb_spec i c), (Z.leb_spec j c); cbn [andb];
    repeat first
      [ rewrite Z.eqb_refl
      | match goal with
        | |- context [?a =? ?b] => destruct (Z.eqb_spec a b); try lia
        | |- context [?a <? ?b] => destruct (Z.ltb_spec a b); try lia
        | |- context [?a >=? ?b] => destruct (Z.geb_spec a b); try lia
        | |- context [?a >? ?b] => destruct (Z.gtb_spec a b); try lia
        | |- context [?a <=? ?b] => destruct (Z.leb_spec a b); try lia
        end ]; cbn [andb]; lia.
Qed.

Lemma reorder_there_and_back_witness :
  let p := Sample.player [Sample.t0; Sample.t1; Sample.t2; Sample.t3] 2 in
  reorderQueue (reorderQueue p 0 3) 3 0 = p.
Proof. intros p. by apply reorder_there_and_back. Defined.

(** X3: [removeFromQueue] deletes the entry at the index; when that
    is not the entry under the cursor, the cursor stays on its track;
    when it is, the cursor keeps its number and so passes to the
    following track, or past the end if there is none. *)
Theorem remove_keeps_current_track (p : t) (index : Z) :
  in_range p index = true -> in_range p (queueIndex p) = true ->
  let p' := removeFromQueue p index in
  queue p' = delete (Z.to_nat index) (queue p) /\
  (index <> queueIndex p ->
     in_range p' (queueIndex p') = true /\
     JSArray.get (queue p') (queueIndex p')
     = JSArray.get (queue p) (queueIndex p)) /\
  (index = queueIndex p ->
     queueIndex p' = queueIndex p /\
     JSArray.get (queue p') (queueIndex p')
     = JSArray.get (queue p) (queueIndex p + 1)).
Proof.
  intros Hi Hc p'. subst p'. rewrite removeFromQueue_in_range by done.
  destruct (in_range_lookup _ _ Hi) as [x Hx].
  apply in_range_spec in Hi, Hc. unfold len in *.
  assert (Hd : length (delete (Z.to_nat index) (queue p))
               = (length (queue p) - 1)%nat)
    by (rewrite length_delete; eauto).
  cbn zeta. destruct (Z.ltb_spec index (queueIndex p)) as [Hlt|Hge]; cbn.
  - split; [done|]. split; [|lia]. intros _. split.
    + apply in_range_spec. unfold len. cbn. lia.
    + rewrite !get_nat by lia. rewrite list_lookup_delete_ge by lia.
      f_equal. lia.
  - split; [done|]. split.
    + intros Hne. split.
      * apply in_range_spec. unfold len. cbn. lia.
      * rewrite !get_nat by lia. apply list_lookup_delete_lt. lia.
    + intros ->. split; [done|]. rewrite !get_nat by lia.
      rewrite list_lookup_delete_ge by lia. f_equal. lia.
Qed.

Lemma remove_keeps_current_track_witness :
  let p := Sample.player [Sample.t0; Sample.t1; Sample.t2] 2 in
  JSArray.get (queue (removeFromQueue p 0)) (queueIndex (removeFromQueue p 0))
  = Some (Some Sample.t2).
Proof.
  intros p.
  destruct (remove_keeps_current_track p 0 eq_refl eq_refl) as (_ & Hother & _).
  destruct Hother as [_ ->]; [cbn; lia | reflexivity].
Defined.
End QueueExtras.

(** ** Moving through the queue *)

Section NavigationExtras.
Import MusicPlayer PlayerControls.

Lemma set_queueIndex_same (p : t) : set_queueIndex p (queueIndex p) = p.
Proof. by destruct p. Qed.

Lemma get_in_range (p : t) (i : Z) :
  0 <= i < len p -> exists e, JSArray.get (queue p) i = Some e.
Proof.
  intros H. unfold JSArray.get, len in *.
  destruct (Z.ltb_spec i 0); [lia|].
  apply lookup_lt_is_Some_2. lia.
Qed.

Lemma moved_to (p : t) (i : Z) :
  Forall is_Some (queue p) -> 0 <= i < len p ->
  moved_within p (set_queueIndex p i)
    [PlayTrack (mjoin (JSArray.get (queue p) i))].
Proof.
  intros Hq Hi. split; [done|]. right. split; [done|].
  destruct (get_in_range p i Hi) as [e He].
  assert (Hin : e ∈ queue p).
  { unfold JSArray.get in He. destruct (Z.ltb_spec i 0); [lia|].
    by eapply list_elem_of_lookup_2. }
  rewrite Forall_forall in Hq. destruct (Hq e Hin) as [track ->].
  exists track. cbn. by rewrite He.
Qed.

(** X4: on a queue with entries, none of them undefined, with the
    cursor at [-1] or on an entry and the random draws within the queue,
    [playNext] and [playPrevious] leave the queue as it is and either
    change nothing or put the cursor on a track of the queue and play
    that track: they never play [undefined] and never leave the queue. *)
Theorem navigation_stays_within (p : t) (draws : list Z)
    (currentTime : spec_float) :
  0 < len p -> Forall is_Some (queue p) -> -1 <= queueIndex p < len p ->
  Forall (fun d => 0 <= d < len p) draws ->
  (forall p' acts, playNext p draws = Some (p', acts) ->
     moved_within p p' acts) /\
  moved_within p (playPrevious p currentTime).1 (playPrevious p currentTime).2.
Proof.
  intros Hlen Hq Hc Hdraws. split.
  - intros p' acts. unfold playNext, playRandom.
    destruct (shuffle p).
    + destruct (Z.leb_spec (len p) 1).
      { intros [= <- <-]. split; [done|]. left. by split; [|left]. }
      destruct (draw_until draws (queueIndex p)) as [r|] eqn:Hr; [|done].
      intros [= <- <-]. apply moved_to; [done|].
      apply draw_until_Some in Hr as [Hin _].
      rewrite Forall_forall in Hdraws. by apply Hdraws.
    + destruct (Z.ltb_spec (queueIndex p) (len p - 1)).
      { intros [= <- <-]. apply (moved_to p (queueIndex p + 1)); [done|lia]. }
      destruct (String.eqb (repeatMode p) "all").
      * intros [= <- <-]. apply (moved_to p 0); [done|lia].
      * intros [= <- <-]. split; [done|]. left. by split; [|left].
  - unfold playPrevious. destruct (SFltb f_three currentTime); cbn [fst snd].
    { split; [done|]. left. by split; [|right]. }
    destruct (Z.gtb_spec (queueIndex p) 0); cbn [fst snd].
    + apply (moved_to p (queueIndex p - 1)); [done|lia].
    + split; [done|]. left. by split; [|left].
Qed.

Lemma navigation_stays_within_witness :
  let p := Sample.player [Sample.t0; Sample.t1; Sample.t2] 2 in
  moved_within p (playPrevious p f_one).1 (playPrevious p f_one).2.
Proof.
  intros p.
  apply (navigation_stays_within p [] f_one);
    [ reflexivity
    | subst p; repeat constructor; by eexists
    | subst p; vm_compute; split; [discriminate | reflexivity]
    | constructor ].
Defined.

(** The edges the theorem excludes. On the empty queue under repeat-all,
    [playNext] puts the cursor at 0 and plays [undefined]; on a queue
    with an undefined entry it plays that entry when the cursor comes to
    it. *)
Example playNext_empty_repeat_all :
  playNext (set_repeatMode initial "all") []
  = Some (set_queueIndex (set_repeatMode initial "all") 0, [PlayTrack None]).
Proof. reflexivity. Qed.

Example playNext_undefined_entry :
  let p := mk [Some Sample.t0; None] 0 false "none" f_one true in
  playNext p [] = Some (set_queueIndex p 1, [PlayTrack None]).
Proof. reflexivity. Qed.

(** X5: without shuffle, "next" followed by "previous" (within the
    first three seconds of the new track) comes back to the state before,
    and so does "previous" followed by "next". *)
Theorem next_previous_round_trip (p : t) (draws : list Z)
    (currentTime : spec_float) :
  shuffle p = false -> SFltb f_three currentTime = false ->
  (0 <= queueIndex p < len p - 1 ->
     exists p1 acts, playNext p draws = Some (p1, acts) /\
       queueIndex p1 = queueIndex p + 1 /\
       (playPrevious p1 currentTime).1 = p) /\
  (0 < queueIndex p < len p ->
     queueIndex (playPrevious p currentTime).1 = queueIndex p - 1 /\
     exists acts, playNext (playPrevious p currentTime).1 draws = Some (p, acts)).
Proof.
  intros Hs Ht. split; intros Hc.
  - unfold playNext. rewrite Hs.
    destruct (Z.ltb_spec (queueIndex p) (len p - 1)); [|lia].
    eexists _, _. split; [reflexivity|]. split; [reflexivity|].
    unfold playPrevious. rewrite Ht. cbn [queueIndex set_queueIndex].
    destruct (Z.gtb_spec (queueIndex p + 1) 0); [|lia]. cbn [fst].
    replace (queueIndex p + 1 - 1) with (queueIndex p) by lia.
    by destruct p.
  - unfold playPrevious. rewrite Ht.
    destruct (Z.gtb_spec (queueIndex p) 0); [|lia]. cbn [fst].
    split; [reflexivity|]. set (p1 := set_queueIndex p (queueIndex p - 1)).
    assert (E : set_queueIndex p1 (queueIndex p1 + 1) = p).
    { subst p1. cbn [queueIndex set_queueIndex].
      replace (queueIndex p - 1 + 1) with (queueIndex p) by lia.
      by destruct p. }
    unfold playNext. change (shuffle p1) with (shuffle p). rewrite Hs.
    change (len p1) with (len p). change (queueIndex p1) with (queueIndex p - 1) at 1.
    destruct (Z.ltb_spec (queueIndex p - 1) (len p - 1)); [|lia].
    cbv zeta. rewrite E. by eexists.
Qed.

Lemma next_previous_round_trip_witness :
  let p := Sample.player [Sample.t0; Sample.t1; Sample.t2] 1 in
  exists p1 acts, playNext p [] = Some (p1, acts) /\
    queueIndex p1 = 2 /\ (playPrevious p1 f_one).1 = p.
Proof.
  intros p.
  destruct (next_previous_round_trip p [] f_one eq_refl eq_refl) as [Hnext _].
  apply Hnext. subst p. vm_compute. split; [discriminate | reflexivity].
Defined.

(** X6: [toggleRepeat] steps through none, one, all and back to none,
    so three toggles restore the mode; from any other mode (one set from
    stored preferences, say) it goes to none. *)
Theorem toggleRepeat_cycle (p : t) :
  (repeatMode p = "none" -> repeatMode (toggleRepeat p) = "one") /\
  (repeatMode p = "one" -> repeatMode (toggleRepeat p) = "all") /\
  (repeatMode p = "all" -> repeatMode (toggleRepeat p) = "none") /\
  (repeatMode p ∉ modes -> repeatMode (toggleRepeat p) = "none") /\
  (repeatMode p ∈ modes -> toggleRepeat (toggleRepeat (toggleRepeat p)) = p) /\
  repeatMode (toggleRepeat p) ∈ modes.
Proof.
  destruct p as [q c s r v h]. unfold toggleRepeat, indexOf, modes.
  cbn [repeatMode set_repeatMode queue queueIndex shuffle volume hasSrc].
  destruct (decide (r = "none")) as [->|Hn]; [by repeat split; try set_solver|].
  destruct (decide (r = "one")) as [->|Ho]; [by repeat split; try set_solver|].
  destruct (decide (r = "all")) as [->|Ha]; [by repeat split; try set_solver|].
  assert (Hfind : list_find (fun m => m = r) ["none"; "one"; "all"] = None).
  { apply list_find_None. repeat constructor; congruence. }
  rewrite Hfind. cbn.
  repeat split; try done.
  - intros Hin.
    repeat (apply elem_of_cons in Hin as [?|Hin]; [done|]).
    by apply elem_of_nil in Hin.
  - by left.
Qed.
End NavigationExtras.

(** ** Starting a track *)

Section PlayTrackExtras.
Import MusicPlayer PlayerControls.

Lemma same_track_refl (track : Track) : same_track track track = true.
Proof. unfold same_track. by rewrite !String.eqb_refl. Qed.

Lemma same_track_spec (a b : Track) :
  same_track a b = true <-> track_id a = track_id b /\ source a = source b.
Proof. unfold same_track. by rewrite andb_true_iff, !String.eqb_eq. Qed.

(** X7: [playTrack(track)] appends the track and puts the cursor on
    it exactly when its stream URL resolves; when resolution throws, the
    player is left as it was. A YouTube track always resolves (the embed
    URL stands in when the request fails); a track whose source is none
    of the three never does, and no request is made for it. *)
Theorem playTrack_follows_stream (base : string) (p : t) (track : slot)
    (r : Streams.StreamFetch) (srcAfter : bool) :
  let resolved := Streams.getStreamURL base track r in
  let p' := playTrack p track true resolved.1 srcAfter in
  (forall e, resolved.1 = inl e -> p' = p) /\
  (forall u, resolved.1 = inr u ->
     queue p' = queue p ++ [track] /\ queueIndex p' = len p /\
     JSArray.get (queue p') (queueIndex p') = Some track /\
     queue_invariant p') /\
  (forall tr, track = Some tr -> source tr = "youtube" ->
     exists u, resolved.1 = inr u) /\
  (forall tr, track = Some tr ->
     source tr ∉ ["youtube"; "soundcloud"; "audius"] ->
     resolved = (inl (Streams.Error "Unknown source"), []) /\ p' = p).
Proof.
  intros resolved p'. subst p'. repeat apply conj.
  - by intros e ->.
  - intros u ->. cbn [playTrack]. unfold len. cbn.
    rewrite length_app. cbn.
    assert (Hlast : Z.of_nat (length (queue p) + 1) - 1
                    = Z.of_nat (length (queue p))) by lia.
    rewrite Hlast. split; [done|]. split; [done|]. split.
    + rewrite get_nat by lia. rewrite Nat2Z.id.
      by rewrite lookup_app_r, Nat.sub_diag.
    + unfold queue_invariant, len. cbn. rewrite length_app. cbn.
      assert (queue p ++ [track] <> [])
        by (intros H; by apply app_eq_nil in H as [_ ?]).
      split; [split; [lia|done]|lia].
  - intros tr -> Hsrc. subst resolved. cbn. rewrite Hsrc. cbn.
    destruct (Streams.read_url r); by eexists.
  - intros tr -> Hsrc. subst resolved. cbn [Streams.getStreamURL].
    assert (Hy : String.eqb (source tr) "youtube" = false)
      by (apply String.eqb_neq; set_solver).
    assert (Hs : String.eqb (source tr) "soundcloud" = false)
      by (apply String.eqb_neq; set_solver).
    assert (Ha : String.eqb (source tr) "audius" = false)
      by (apply String.eqb_neq; set_solver).
    by rewrite Hy, Hs, Ha.
Qed.

(** X8: on a queue without undefined entries, [isTrackInQueue] finds a
    track exactly when an entry has its id and source (nothing else is
    compared), and a track just added is found. *)
Theorem queued_track_is_found (p : t) (track : Track) :
  Forall is_Some (queue p) ->
  isTrackInQueue (addToQueue p (Some track)) track = inr true /\
  (isTrackInQueue p track = inr true <->
     exists e, Some e ∈ queue p /\
       track_id e = track_id track /\ source e = source track) /\
  (isTrackInQueue p track = inr false <->
     forall e, Some e ∈ queue p ->
       ~ (track_id e = track_id track /\ source e = source track)).
Proof.
  unfold isTrackInQueue, addToQueue. cbn [queue set_queue].
  induction (queue p) as [|[e|] q IH]; intros Hq.
  - cbn. rewrite same_track_refl. split; [done|]. split.
    + split; [done|]. by intros (e & ?%elem_of_nil & _).
    + split; [|done]. by intros _ e ?%elem_of_nil.
  - apply Forall_cons_1 in Hq as [_ Hq]. destruct (IH Hq) as (IH1 & IH2 & IH3).
    cbn. destruct (same_track e track) eqn:He.
    + split; [done|]. split.
      * split; [|done]. intros _. exists e. split; [by left|].
        by apply same_track_spec.
      * split; [done|]. intros H. exfalso. apply (H e); [by left|].
        by apply same_track_spec.
    + assert (Hne : ~ (track_id e = track_id track /\ source e = source track))
        by (rewrite <- same_track_spec; congruence).
      split; [done|]. split.
      * rewrite IH2. split.
        -- intros (e' & Hin & ?). exists e'. split; [by right|done].
        -- intros (e' & [Heq|Hin]%elem_of_cons & ?); [congruence|].
           by exists e'.
      * rewrite IH3. split.
        -- intros H e' [Heq|Hin]%elem_of_cons; [congruence|by apply H].
        -- intros H e' Hin. apply H. by right.
  - apply Forall_cons_1 in Hq as [[? [=]] _].
Qed.

Lemma queued_track_is_found_witness :
  isTrackInQueue
    (addToQueue (Sample.player [Sample.t0; Sample.t1] 0) (Some Sample.t2))
    Sample.t2 = inr true.
Proof.
  apply (queued_track_is_found (Sample.player [Sample.t0; Sample.t1] 0)).
  repeat constructor; by eexists.
Defined.

(** An undefined entry ahead of any match makes the test throw. *)
Example isTrackInQueue_undefined_entry :
  isTrackInQueue (mk [None; Some Sample.t0] 0 false "none" f_one true)
    Sample.t0 = inl APIManager.TypeError.
Proof. reflexivity. Qed.
End PlayTrackExtras.

(** ** Preferences *)

Section PreferencesExtras.
Import MusicPlayer PlayerControls App.

(** A volume within [0, 1] other than zero is its own clamp. *)
Lemma clamp_fixed (v : spec_float) :
  in_unit_interval v = true -> (forall s, v <> S754_zero s) ->
  Math_max f_zero (Math_min f_one v) = v.
Proof.
  intros Hv Hz. destruct v as [s|[]| |[] m e]; try done.
  { by destruct (Hz s). }
  pose proof (SFcompare_antisym f_one (S754_finite false m e)) as Hanti.
  unfold in_unit_interval, SFleb in Hv. apply andb_true_iff in Hv as [_ Hv].
  unfold Math_min.
  destruct (SFcompare f_one (S754_finite false m e)) as [[]|] eqn:Hc;
    cbn [fmap option_fmap option_map CompOpp] in Hanti;
    rewrite Hanti in Hv; try done.
Qed.

(** X9: preferences saved from one state and loaded into another
    bring back the shuffle flag, the repeat mode, the theme and the
    volume, with these exceptions: a volume of 0 comes back as 1, and an
    empty repeat mode or theme comes back as the default. The queue of
    the loading player is left alone. *)
Theorem preferences_round_trip (app0 app : App.t) :
  in_unit_interval (volume (player app)) = true ->
  let app' := loadPreferences app0 (Some (savePreferences app)) in
  queue (player app') = queue (player app0) /\
  queueIndex (player app') = queueIndex (player app0) /\
  shuffle (player app') = shuffle (player app) /\
  repeatMode (player app')
  = (if String.eqb (repeatMode (player app)) "" then "none"
     else repeatMode (player app)) /\
  theme app'
  = (if String.eqb (theme app) "" then "auto" else theme app) /\
  volume (player app')
  = match volume (player app) with
    | S754_zero _ => f_one
    | v => v
    end.
Proof.
  intros Hv app'. subst app'.
  unfold loadPreferences, savePreferences, setShuffle, setRepeat, setVolume.
  cbn. rewrite orb_false_r. repeat split; try done.
  destruct (volume (player app)) as [s|[]| |[] m e] eqn:Hvol; try done.
  cbn [json_number volume_or_one].
  by apply clamp_fixed.
Qed.

Lemma preferences_round_trip_witness :
  let muted := setVolume initial f_zero in
  volume (player (loadPreferences (App.mk "dark" initial)
                    (Some (savePreferences (App.mk "dark" muted))))) = f_one.
Proof.
  intros muted.
  destruct (preferences_round_trip (App.mk "dark" initial) (App.mk "dark" muted))
    as (_ & _ & _ & _ & _ & Hvol); [reflexivity|].
  exact Hvol.
Defined.
End PreferencesExtras.

(** ** The cache and the aggregator: more *)

Section CacheExtras.
Import APIManager.

(** X10: a [fetchWithCache] call leaves the cache entries of all
    other keys as they are, and issues at most one request, for its own
    URL. *)
Theorem fetchWithCache_touches_own_key (api : t) (url options : string)
    (env : Env) (key : string) :
  key <> cacheKey url options ->
  let api' := (fetchWithCache api url options env).2 in
  cache api' !! key = cache api !! key /\
  baseURL api' = baseURL api /\
  (fetched api' = fetched api \/
   fetched api' = fetched api ++ [(url, options)]).
Proof.
  intros Hkey api'. subst api'. unfold fetchWithCache.
  destruct (cache_hit api _ _); [by repeat split; try left|].
  destruct (response env) as [msg|[] status [d|]]; cbn;
    repeat split; try (by right).
  by rewrite lookup_insert_ne.
Qed.

Lemma fetchWithCache_touches_own_key_witness :
  let env := mkEnv 2000000 (FetchResponse true 200 (Some (JOther "new"))) 2000001 in
  cache (fetchWithCache Sample.warm_api "/api/lyrics" "{}" env).2
    !! cacheKey "/api/trending" "{}"
  = Some (mkEntry (JOther "cached") 1000000).
Proof.
  intros env.
  destruct (fetchWithCache_touches_own_key Sample.warm_api "/api/lyrics" "{}"
              env (cacheKey "/api/trending" "{}")) as [-> _].
  - vm_compute. discriminate.
  - vm_compute. reflexivity.
Defined.

(** X11: after [clearCache] nothing is served from the cache: the
    next call for any URL issues its request, whatever was stored and
    however recently. *)
Theorem clearCache_forces_refetch (api : t) (url options : string) (env : Env) :
  cache (clearCache api) = ∅ /\
  fetched (clearCache api) = fetched api /\
  fetched (fetchWithCache (clearCache api) url options env).2
  = fetched api ++ [(url, options)] /\
  (forall d, (fetchWithCache (clearCache api) url options env).1 = inr d ->
     exists status, response env = FetchResponse true status (Some d)).
Proof.
  split; [done|]. split; [done|]. split.
  - by rewrite fetchWithCache_miss.
  - intros d. unfold fetchWithCache, cache_hit. cbn. rewrite lookup_empty.
    destruct (response env) as [msg|[] status [d'|]]; cbn; try done.
    intros [= ->]. by exists status.
Qed.
End CacheExtras.

Section MergeExtras.
Import APIManager.
Implicit Types lists : list (list Track).

(** One round takes the heads and leaves the tails. *)
Lemma concat_heads_tails lists :
  concat lists ≡ₚ omap head lists ++ concat (tail <$> lists).
Proof.
  induction lists as [|[|x l] lists IH]; cbn.
  - done.
  - done.
  - rewrite IH. constructor.
    by rewrite !app_assoc, (Permutation_app_comm l).
Qed.

Lemma rounds_Permutation (n : nat) : forall lists,
  Forall (fun l => (length l <= n)%nat) lists ->
  rounds n lists ≡ₚ concat lists.
Proof.
  induction n as [|n IH]; intros lists Hlen; cbn [rounds].
  - induction Hlen as [|l lists Hl _ IHl]; [done|].
    destruct l; [done|cbn in Hl; lia].
  - rewrite concat_heads_tails. f_equiv. apply IH.
    rewrite Forall_fmap. eapply Forall_impl; [done|].
    intros [|x l] H; cbn in *; lia.
Qed.

Lemma rounds_sublist (n : nat) : forall lists (l : list Track),
  l ∈ lists -> (length l <= n)%nat -> l `sublist_of` rounds n lists.
Proof.
  induction n as [|n IH]; intros lists l Hin Hlen.
  - destruct l; [apply sublist_nil_l|cbn in Hlen; lia].
  - destruct l as [|x l]; [apply sublist_nil_l|]. cbn [rounds].
    change (x :: l) with ([x] ++ l). apply sublist_app.
    + apply singleton_sublist_l, list_elem_of_omap. by exists (x :: l).
    + apply IH; [|cbn in Hlen; lia].
      apply list_elem_of_fmap. by exists (x :: l).
Qed.

Lemma max_length_bound lists :
  Forall (fun l => (length l <= foldr Nat.max O (length <$> lists))%nat) lists.
Proof.
  induction lists as [|l lists IH]; [constructor|]. cbn. constructor; [lia|].
  eapply Forall_impl; [done|]. intros l' H. cbn in H. lia.
Qed.

(** X12: [mergeResults] loses and invents nothing: the merged list
    is a rearrangement of the three result lists taken together, and each
    provider's results appear in it in their own order. *)
Theorem mergeResults_keeps_everything (r : Results) :
  mergeResults r ≡ₚ youtube r ++ soundcloud r ++ audius r /\
  length (mergeResults r)
  = (length (youtube r) + length (soundcloud r) + length (audius r))%nat /\
  youtube r `sublist_of` mergeResults r /\
  soundcloud r `sublist_of` mergeResults r /\
  audius r `sublist_of` mergeResults r.
Proof.
  rewrite mergeResults_round_robin. unfold round_robin.
  set (lists := [youtube r; soundcloud r; audius r]).
  pose proof (max_length_bound lists) as Hb.
  assert (Hp : rounds (foldr Nat.max O (length <$> lists)) lists
               ≡ₚ youtube r ++ soundcloud r ++ audius r).
  { rewrite rounds_Permutation by done. cbn. by rewrite app_nil_r. }
  split; [done|]. split.
  { rewrite Hp, !length_app. lia. }
  rewrite Forall_forall in Hb.
  repeat split; (apply rounds_sublist; [|apply Hb]); subst lists; set_solver.
Qed.
End MergeExtras.

Section SearchFilterExtras.
Import APIManager.
Variable encodeURIComponent : string -> string.

Lemma rounds_empty (n : nat) : rounds n [[]; []; []] = [].
Proof. induction n as [|n IH]; [done|]. cbn. apply IH. Qed.

Lemma rounds_first (n : nat) : forall l : list Track,
  (length l <= n)%nat -> rounds n [l; []; []] = l.
Proof.
  induction n as [|n IH]; intros [|x l] H; cbn in *; try lia; try done.
  - apply rounds_empty.
  - f_equal. apply IH. lia.
Qed.

Lemma rounds_second (n : nat) : forall l : list Track,
  (length l <= n)%nat -> rounds n [[]; l; []] = l.
Proof.
  induction n as [|n IH]; intros [|x l] H; cbn in *; try lia; try done.
  - apply rounds_empty.
  - f_equal. apply IH. lia.
Qed.

Lemma rounds_third (n : nat) : forall l : list Track,
  (length l <= n)%nat -> rounds n [[]; []; l] = l.
Proof.
  induction n as [|n IH]; intros [|x l] H; cbn in *; try lia; try done.
  - apply rounds_empty.
  - f_equal. apply IH. lia.
Qed.

(** X13: with a source filter, [search] asks that provider alone and
    returns its results as they are; with a filter that names none of the
    providers it asks nobody and returns the empty list. *)
Theorem search_by_source (api : t) (query source : string) (ey es ea : Env) :
  (source = "youtube" ->
     let f := fetchWithCache api (youtube_url encodeURIComponent api query)
                "{}" ey in
     search encodeURIComponent api query source ey es ea
     = (inr (youtube_results f.1), f.2)) /\
  (source = "soundcloud" ->
     let f := fetchWithCache api (soundcloud_url encodeURIComponent api query)
                "{}" es in
     search encodeURIComponent api query source ey es ea
     = (inr (soundcloud_results f.1), f.2)) /\
  (source = "audius" ->
     let f := fetchWithCache api (audius_url encodeURIComponent query)
                "{}" ea in
     search encodeURIComponent api query source ey es ea
     = (inr (audius_results f.1), f.2)) /\
  (source ∉ ["all"; "youtube"; "soundcloud"; "audius"] ->
     search encodeURIComponent api query source ey es ea = (inr [], api)).
Proof.
  repeat apply conj.
  - intros -> f. unfold search.
    change (wanted "youtube" "youtube") with true.
    change (wanted "youtube" "soundcloud") with false.
    change (wanted "youtube" "audius") with false. cbv iota.
    rewrite searchYouTube_fulfilled. fold f. cbn [settled].
    rewrite mergeResults_round_robin. unfold round_robin. cbn.
    rewrite rounds_first by lia. reflexivity.
  - intros -> f. unfold search.
    change (wanted "soundcloud" "youtube") with false.
    change (wanted "soundcloud" "soundcloud") with true.
    change (wanted "soundcloud" "audius") with false. cbv iota.
    rewrite searchSoundCloud_fulfilled. fold f. cbn [settled].
    rewrite mergeResults_round_robin. unfold round_robin. cbn.
    rewrite rounds_second by lia. reflexivity.
  - intros -> f. unfold search.
    change (wanted "audius" "youtube") with false.
    change (wanted "audius" "soundcloud") with false.
    change (wanted "audius" "audius") with true. cbv iota.
    rewrite searchAudius_fulfilled. fold f. cbn [settled].
    rewrite mergeResults_round_robin. unfold round_robin. cbn.
    rewrite rounds_third by lia. reflexivity.
  - intros Hsrc. unfold search, wanted.
    assert (Hall : String.eqb source "all" = false)
      by (apply String.eqb_neq; set_solver).
    assert (Hy : String.eqb source "youtube" = false)
      by (apply String.eqb_neq; set_solver).
    assert (Hs : String.eqb source "soundcloud" = false)
      by (apply String.eqb_neq; set_solver).
    assert (Ha : String.eqb source "audius" = false)
      by (apply String.eqb_neq; set_solver).
    rewrite Hall, Hy, Hs, Ha. reflexivity.
Qed.
End SearchFilterExtras.

(** ** Trending *)

Section TrendingExtras.
Import APIManager Trending.
Context {A : Type}.
Implicit Types l : list A.

Lemma delete_insert_same l (i : nat) (b : A) :
  delete i (<[i := b]> l) = delete i l.
Proof. revert i. induction l as [|x l IH]; intros [|i]; cbn; f_equal; auto. Qed.

Lemma insert_Permutation l (i : nat) (a b : A) :
  l !! i = Some a -> <[i := b]> l ≡ₚ b :: delete i l.
Proof.
  intros Ha. pose proof (lookup_lt_Some _ _ _ Ha) as Hi.
  rewrite (delete_Permutation (<[i := b]> l) i b)
    by (by apply list_lookup_insert_eq).
  by rewrite delete_insert_same.
Qed.

Lemma swap_Permutation l l' (i j : nat) : swap l i j = Some l' -> l' ≡ₚ l.
Proof.
  unfold swap. intros Hs.
  destruct (l !! i) as [a|] eqn:Ha; [|done].
  destruct (l !! j) as [b|] eqn:Hb; [|done].
  cbn in Hs. injection Hs as <-.
  destruct (decide (i = j)) as [->|Hne].
  - rewrite list_insert_insert_eq. assert (a = b) as -> by congruence.
    by rewrite list_insert_id.
  - assert (Hj : <[i := b]> l !! j = Some b)
      by (by rewrite list_lookup_insert_ne).
    rewrite (insert_Permutation _ j b a Hj).
    assert (Hd : delete j (<[i := b]> l) ≡ₚ delete i l).
    { apply (Permutation_cons_inv (a := b)).
      rewrite <- (delete_Permutation _ j b Hj).
      by apply insert_Permutation with (a := a). }
    rewrite Hd. symmetry. by apply delete_Permutation.
Qed.

Lemma swap_length l l' (i j : nat) : swap l i j = Some l' -> length l' = length l.
Proof. intros H%swap_Permutation. by rewrite H. Qed.

Lemma shuffle_from_Permutation (i : nat) : forall l l' (draws : list nat),
  shuffle_from i l draws = Some l' -> l' ≡ₚ l.
Proof.
  induction i as [|i IH]; intros l l' draws; cbn.
  - by intros [= ->].
  - destruct draws as [|j rest]; [done|]. case_decide; [|done].
    destruct (swap l (S i) j) as [l1|] eqn:Hs; [|done]. cbn.
    intros Hrec%IH. rewrite Hrec. by eapply swap_Permutation.
Qed.

(** Draws that fit are enough for the loop to finish. *)
Lemma shuffle_from_enough (i : nat) : forall l (draws : list nat),
  (i < length l)%nat ->
  (forall k, (k < i)%nat ->
     exists j, draws !! k = Some j /\ (j <= i - k)%nat) ->
  is_Some (shuffle_from i l draws).
Proof.
  induction i as [|i IH]; intros l draws Hi Hd; cbn; [by eexists|].
  destruct (Hd O) as (j & Hj & Hle); [lia|].
  destruct draws as [|j' rest]; [done|]. cbn in Hj. injection Hj as ->.
  rewrite decide_True by lia.
  destruct (lookup_lt_is_Some_2 l (S i) Hi) as [a Ha].
  destruct (lookup_lt_is_Some_2 l j ltac:(lia)) as [b Hb].
  unfold swap. rewrite Ha, Hb. cbn.
  apply IH.
  - rewrite !length_insert. lia.
  - intros k Hk. destruct (Hd (S k)) as (j' & Hj' & Hle'); [lia|].
    exists j'. split; [done|lia].
Qed.

(** X14: [shuffleArray] returns a rearrangement of its argument, and
    [getTrending] returns the first 20 entries of a rearrangement of the
    trending lists of the providers whose promise was fulfilled: at most
    20 tracks, each one from those lists and none more often than there,
    and none at all when both promises were rejected. Draws that fit the
    array are enough for both to return. *)
Theorem getTrending_sample (youtube audius : JSError + list A)
    (draws : list nat) :
  let results := fulfilled youtube ++ fulfilled audius in
  (forall shuffled, shuffleArray results draws = Some shuffled ->
     shuffled ≡ₚ results) /\
  (forall trending, getTrending youtube audius draws = Some trending ->
     length trending = (20 `min` length results)%nat /\
     trending ⊆+ results) /\
  (forall e1 e2, youtube = inl e1 -> audius = inl e2 ->
     getTrending youtube audius draws = Some []) /\
  (draws_fit (length results) draws ->
     is_Some (getTrending youtube audius draws)).
Proof.
  intros results. repeat apply conj.
  - intros shuffled. apply shuffle_from_Permutation.
  - intros trending. unfold getTrending. fold results.
    destruct (shuffleArray results draws) as [shuffled|] eqn:Hs; [|done].
    intros Hg. change (Some (JSArray.slice0 shuffled 20) = Some trending) in Hg.
    injection Hg as <-. apply shuffle_from_Permutation in Hs.
    rewrite slice0_take by lia. split.
    + rewrite length_take, Hs. lia.
    + rewrite <- Hs. apply sublist_submseteq, sublist_take.
  - intros e1 e2 -> ->. reflexivity.
  - intros Hfit. unfold getTrending. fold results.
    destruct results as [|x rest] eqn:Hres.
    + by eexists.
    + destruct (shuffle_from_enough (length rest) (x :: rest) draws)
        as [shuffled Hs].
      * cbn. lia.
      * intros k Hk. destruct (Hfit k) as (j & Hj & Hle); [cbn; lia|].
        exists j. split; [done|]. cbn in Hle. lia.
      * unfold shuffleArray. cbn [length].
        replace (S (length rest) - 1)%nat with (length rest) by lia.
        rewrite Hs. by eexists.
Qed.
End TrendingExtras.

Lemma getTrending_sample_witness :
  is_Some (Trending.getTrending (inr [Sample.t0; Sample.t1])
             (inr [Sample.t3]) [1%nat; 0%nat]).
Proof.
  apply (getTrending_sample (inr [Sample.t0; Sample.t1]) (inr [Sample.t3])
           [1%nat; 0%nat]).
  intros [|[|k]] Hk; cbn in *; try lia; eexists; (split; [reflexivity|lia]).
Defined.

(** ** Downloads *)

Section DownloadExtras.
Import DatabaseManager Streams Library.

(** X15: [downloadTrack] never rejects. Unless it is fulfilled with
    [true] the database is left as it was; when it is, the blob that was
    fetched from the stream URL is stored with its download record under
    the id of the track. For a YouTube track whose stream request fails,
    the URL that is fetched, and so stored, is that of the embed page. *)
Theorem downloadTrack_outcome (base : string) (db : DatabaseManager.t)
    (track : Track) (stream : StreamFetch) (download : BlobFetch)
    (now1 now2 : Z) (f : Faults) :
  let r := downloadTrack base db track stream download now1 now2 f in
  let trackId := source track +:+ "_" +:+ track_id track in
  (forall reason, r.1.1 <> Rejected reason) /\
  (r.1.1 <> Fulfilled true -> r.1.2 = db) /\
  (r.1.1 = Fulfilled true ->
     exists blob streamUrl,
       download = BlobResponse (Some blob) /\
       (getStreamURL base (Some track) stream).1 = inr streamUrl /\
       last r.2 = Some (as_url streamUrl) /\
       offlineTracks r.1.2 !! trackId
         = Some (mkOfflineTrack track trackId blob now1) /\
       downloads r.1.2 !! trackId
         = Some (mkDownload trackId track (size blob) now2)) /\
  (source track = "youtube" -> (exists e, read_url stream = inl e) ->
     r.2 = [youtube_stream_url base (track_id track);
            youtube_embed_url (track_id track)]).
Proof.
  intros r trackId. subst r. unfold downloadTrack.
  destruct (getStreamURL base (Some track) stream) as [resolved requests] eqn:Hg.
  assert (Hsave : forall blob,
    saveOfflineTrack db track blob now1 now2 f =
      match request_fault f 0, request_fault f 1, commit_fault f with
      | Some e, _, _ => (Rejected None, db)
      | None, Some e, _ => (Rejected None, db)
      | None, None, Some e => (Pending, db)
      | None, None, None =>
          (Fulfilled true,
           exec (exec db (PutOfflineTrack (mkOfflineTrack track trackId blob now1)))
                (PutDownload (mkDownload trackId track (size blob) now2)))
      end).
  { intros blob. unfold saveOfflineTrack. rewrite transaction_two.
    destruct (request_fault f 0), (request_fault f 1), (commit_fault f);
      reflexivity. }
  repeat apply conj.
  - intros reason. destruct resolved as [e|streamUrl]; [done|].
    destruct download as [msg|[blob|]]; try done. rewrite Hsave.
    destruct (request_fault f 0), (request_fault f 1), (commit_fault f); done.
  - destruct resolved as [e|streamUrl]; [done|].
    destruct download as [msg|[blob|]]; try done. rewrite Hsave.
    destruct (request_fault f 0), (request_fault f 1), (commit_fault f); done.
  - destruct resolved as [e|streamUrl]; [done|].
    destruct download as [msg|[blob|]]; try done. rewrite Hsave.
    destruct (request_fault f 0), (request_fault f 1), (commit_fault f);
      try done.
    intros _. exists blob, streamUrl. cbn [fst snd].
    split; [done|]. split; [done|]. split; [apply last_snoc|].
    split; cbn; apply lookup_insert_eq.
  - intros Hsrc [e He]. unfold getStreamURL in Hg. rewrite Hsrc in Hg.
    change (String.eqb "youtube" "youtube") with true in Hg. cbv iota in Hg.
    unfold getYouTubeStream in Hg. rewrite He in Hg.
    injection Hg as <- <-.
    destruct download as [msg|[blob|]]; try done. rewrite Hsave.
    destruct (request_fault f 0), (request_fault f 1), (commit_fault f); done.
Qed.

(** X16: saving a track for offline use and then deleting the download
    leaves nothing under its id and every other record as it was, so the
    database is as before when the track had not been saved before. In
    between, [getOfflineTrack] gives the record with the blob. *)
Theorem save_then_delete (db : DatabaseManager.t) (track : Track)
    (blob : Blob) (now1 now2 : Z) :
  let trackId := source track +:+ "_" +:+ track_id track in
  let saved := (saveOfflineTrack db track blob now1 now2 no_faults).2 in
  let deleted := deleteDownload saved trackId no_faults in
  getOfflineTrack saved trackId
    = Fulfilled (Some (mkOfflineTrack track trackId blob now1)) /\
  deleted.1 = Fulfilled true /\
  offlineTracks deleted.2 = delete trackId (offlineTracks db) /\
  downloads deleted.2 = delete trackId (downloads db) /\
  (offlineTracks db !! trackId = None -> downloads db !! trackId = None ->
     deleted.2 = db).
Proof.
  intros trackId saved deleted. subst deleted saved.
  unfold saveOfflineTrack, deleteDownload. rewrite !transaction_two.
  cbn [no_faults request_fault commit_fault fst snd settle exec].
  fold trackId. unfold getOfflineTrack.
  cbn [offlineTracks downloads set_offlineTracks set_downloads ot_id dl_id
       playlists playlistsNext searchHistory searchHistoryNext].
  rewrite !delete_insert_eq.
  repeat apply conj; try reflexivity.
  { f_equal. apply lookup_insert_eq. }
  intros Ho Hd. rewrite !delete_id by done. by destruct db.
Qed.
End DownloadExtras.

Lemma save_then_delete_witness :
  (DatabaseManager.deleteDownload
     (DatabaseManager.saveOfflineTrack DatabaseManager.empty Sample.t0
        Sample.blob 10 11 DatabaseManager.no_faults).2
     "youtube_t0" DatabaseManager.no_faults).2 = DatabaseManager.empty.
Proof.
  apply (save_then_delete DatabaseManager.empty Sample.t0 Sample.blob 10 11);
    reflexivity.
Defined.

(** ** Liked tracks *)

Section LikeExtras.
Import DatabaseManager Library.

(** X17: with the storage working, [toggleLike] answers with the
    opposite of what [isLiked] said before, [isLiked] says the same
    afterwards, no other track changes its state, and liking a track and
    then toggling again leaves the store as it was. Whatever fails, the
    store is either left alone or holds the toggled state, and it is left
    alone when the promise is rejected. *)
Theorem toggleLike_flips (lib : Library.t) (track : Track) (now : Z) :
  let before := bool_decide (is_Some (liked lib !! likeId track)) in
  let r := toggleLike lib track now no_faults in
  isLiked lib track no_faults = Fulfilled before /\
  r.1 = Fulfilled (negb before) /\
  isLiked r.2 track no_faults = Fulfilled (negb before) /\
  (forall other, likeId other <> likeId track ->
     liked r.2 !! likeId other = liked lib !! likeId other) /\
  (before = false ->
     forall now', toggleLike r.2 track now' no_faults = (Fulfilled false, lib)) /\
  (forall f, let r' := toggleLike lib track now f in
     (r'.2 = lib \/ r'.2 = r.2) /\
     (forall reason, r'.1 = Rejected reason -> r'.2 = lib)).
Proof.
  intros before r. subst r before.
  unfold toggleLike, isLiked. cbn [no_faults request_fault commit_fault].
  destruct (liked lib !! likeId track) as [old|] eqn:Hl; cbn [fst snd].
  - rewrite bool_decide_true by eauto. cbn [negb set_liked liked].
    rewrite lookup_delete_eq. repeat apply conj; try done.
    + intros other Hne. by rewrite lookup_delete_ne.
    + intros f. destruct (request_fault f 0), (request_fault f 1),
        (commit_fault f); cbn; split; try done; auto.
  - rewrite bool_decide_false by (by intros [? ?]). cbn [negb set_liked liked].
    rewrite lookup_insert_eq. rewrite bool_decide_true by eauto.
    repeat apply conj; try done.
    + intros other Hne. by rewrite lookup_insert_ne.
    + intros _ now'. cbn. rewrite delete_insert_id by done. by destruct lib.
    + intros f. destruct (request_fault f 0), (request_fault f 1),
        (commit_fault f); cbn; split; try done; auto.
Qed.
End LikeExtras.

(** ** Playlist contents *)

Section PlaylistExtras.
Import DatabaseManager Playlists PlayerControls.

(** X18: [addToPlaylist] never changes the database and never answers
    [true]. On a stored playlist, a track that is in it with the same id
    and source is not added: the answer is [false] and no update is
    attempted. For any other track the record handed to [store.put] is
    the playlist with the track put at the end of its tracks and
    [modified] set to the current time, but [updatePlaylist] is rejected
    with the [TransactionInactiveError] of that call, and so is
    [addToPlaylist]: the track is not added. *)
Theorem addToPlaylist_adds_nothing (db : t) (id : JSValue) (track : Track)
    (now : Z) :
  (addToPlaylist db id track now).1.2 = db /\
  (addToPlaylist db id track now).1.1 <> Resolved true /\
  (forall k r l,
     id = key_value k -> playlists db !! k = Some r ->
     r !! "tracks" = Some (JTracks l) ->
     if existsb (fun t => same_track t track) l
     then addToPlaylist db id track now = (Resolved false, db, [])
     else addToPlaylist db id track now
          = (Threw (StoreError (Some TransactionInactiveError)), db,
             [<["modified" := JNum now]>
                (<["tracks" := JTracks (l ++ [track])]> r)])).
Proof.
  assert (Hgen : forall updates (v : bool),
    (of_update (updatePlaylist db id updates now) v).1.2 = db /\
    (of_update (updatePlaylist db id updates now) v).1.1 <> Resolved true).
  { intros updates v. unfold updatePlaylist.
    destruct (getPlaylist db id) as [playlist|e|]; by split. }
  repeat apply conj.
  - unfold addToPlaylist.
    destruct (getPlaylist db id) as [playlist|e|] eqn:Hg; try done.
    destruct (tracks_of playlist) as [l|]; [|done].
    case_match; [done|]. apply Hgen.
  - unfold addToPlaylist.
    destruct (getPlaylist db id) as [playlist|e|] eqn:Hg; try done.
    destruct (tracks_of playlist) as [l|]; [|done].
    case_match; [done|]. apply Hgen.
  - intros k r l -> Hr Htr. unfold addToPlaylist, getPlaylist.
    rewrite to_key_key_value, Hr. unfold tracks_of. rewrite Htr.
    case_match; [done|].
    rewrite updatePlaylist_inactive, Hr. cbn [of_update].
    do 3 f_equal. unfold merged. change (default ∅ (Some r)) with r.
    f_equal. apply map_eq. intros f. rewrite lookup_union.
    destruct (decide (f = "tracks")) as [->|Hf].
    + rewrite lookup_singleton_eq, lookup_insert_eq, Htr. done.
    + rewrite lookup_singleton_ne, lookup_insert_ne by done.
      by destruct (r !! f).
Qed.

(** X19: [removeFromPlaylist] on a stored playlist hands to [store.put]
    the playlist with, in their order, the tracks whose id differs from
    the one given (so without any track of that id, whatever its
    source), its other fields as they were and [modified] set to the
    current time; but the call is rejected with the
    [TransactionInactiveError] of that [put] and the database is left as
    it was: nothing is removed. A playlist that is not stored makes both
    [addToPlaylist] and [removeFromPlaylist] throw a [TypeError]. *)
Theorem removeFromPlaylist_by_id (db : t) (k : Key) (now : Z) :
  (forall r l trackId,
     playlists db !! k = Some r -> r !! "tracks" = Some (JTracks l) ->
     exists r' kept,
       removeFromPlaylist db (key_value k) trackId now
       = (Threw (StoreError (Some TransactionInactiveError)), db, [r']) /\
       r' !! "tracks" = Some (JTracks kept) /\
       kept `sublist_of` l /\
       (forall t, t ∈ kept <-> t ∈ l /\ track_id t <> trackId) /\
       r' !! "modified" = Some (JNum now) /\
       (forall f, f <> "tracks" -> f <> "modified" -> r' !! f = r !! f)) /\
  (playlists db !! k = None ->
     forall track trackId,
       addToPlaylist db (key_value k) track now = (Threw JSTypeError, db, []) /\
       removeFromPlaylist db (key_value k) trackId now
       = (Threw JSTypeError, db, [])).
Proof.
  split.
  - intros r l trackId Hr Htr.
    unfold removeFromPlaylist, getPlaylist.
    rewrite to_key_key_value, Hr. unfold tracks_of. rewrite Htr.
    rewrite updatePlaylist_inactive, Hr. cbn [of_update].
    eexists _, _. split; [reflexivity|].
    split; [rewrite merged_lookup, decide_False by done;
            by rewrite lookup_singleton_eq|].
    split; [apply sublist_filter|].
    split.
    + intros t. rewrite list_elem_of_filter.
      rewrite negb_true_iff, String.eqb_neq. tauto.
    + split; [by rewrite merged_lookup, decide_True|].
      intros f Hf1 Hf2. rewrite merged_lookup, decide_False by done.
      by rewrite lookup_singleton_ne.
  - intros Hnone track trackId.
    unfold addToPlaylist, removeFromPlaylist, getPlaylist.
    by rewrite to_key_key_value, Hnone.
Qed.
End PlaylistExtras.

Lemma addToPlaylist_adds_nothing_witness :
  Playlists.addToPlaylist Sample.mix_db (DatabaseManager.JNum 1) Sample.t3 7000
  = (Playlists.Threw
       (Playlists.StoreError (Some DatabaseManager.TransactionInactiveError)),
     Sample.mix_db,
     [<["modified" := DatabaseManager.JNum 7000]>
        (<["tracks" := DatabaseManager.JTracks [Sample.t3]]> Sample.mix_record)]).
Proof.
  destruct (addToPlaylist_adds_nothing Sample.mix_db (DatabaseManager.JNum 1)
              Sample.t3 7000) as (_ & _ & H).
  apply (H (inl 1) Sample.mix_record []); vm_compute; reflexivity.
Defined.

(** ** Play history and retention *)

Section StampIndex.
Import DatabaseManager Library.

Lemma ascii_compare_refl (a : Ascii.ascii) : Ascii.compare a a = Eq.
Proof. unfold Ascii.compare. apply N.compare_refl. Qed.

Lemma ascii_compare_lt_trans (a b c : Ascii.ascii) :
  Ascii.compare a b = Lt -> Ascii.compare b c = Lt -> Ascii.compare a c = Lt.
Proof.
  unfold Ascii.compare. rewrite !N.compare_lt_iff. apply N.lt_trans.
Qed.

Lemma string_leb_trans (s1 : string) : forall s2 s3,
  String.leb s1 s2 = true -> String.leb s2 s3 = true -> String.leb s1 s3 = true.
Proof.
  unfold String.leb.
  induction s1 as [|a s1 IH]; intros [|b s2] [|c s3]; cbn; try done.
  destruct (Ascii.compare a b) eqn:Hab; try done;
    destruct (Ascii.compare b c) eqn:Hbc; try done.
  - apply Ascii.compare_eq_iff in Hab, Hbc. subst.
    rewrite ascii_compare_refl. apply IH.
  - apply Ascii.compare_eq_iff in Hab. subst. by rewrite Hbc.
  - apply Ascii.compare_eq_iff in Hbc. subst. by rewrite Hab.
  - by rewrite (ascii_compare_lt_trans a b c).
Qed.

Lemma StronglySorted_weaken {A} (R R' : relation A) (l : list A) :
  (forall a b, R a b -> R' a b) -> StronglySorted R l -> StronglySorted R' l.
Proof.
  intros HR. induction 1 as [|x l Hl IH Hx]; constructor; [done|].
  eapply Forall_impl; [exact Hx|]. intros y. apply HR.
Qed.

Context {V : Type} (stamp : V -> Z).
Implicit Types m : gmap string V.

#[local] Instance stamp_le_total : Total (stamp_le stamp).
Proof.
  intros [i a] [j b]. unfold stamp_le. cbn.
  destruct (Z.lt_trichotomy (stamp a) (stamp b)) as [?|[?|?]];
    destruct (String.leb_total i j); auto with lia.
Qed.

#[local] Instance stamp_le_trans : Transitive (stamp_le stamp).
Proof.
  intros [i a] [j b] [k c]. unfold stamp_le. cbn.
  intros [?|[? Hij]] [?|[? Hjk]]; [left; lia..|].
  right. split; [lia|]. by apply (string_leb_trans i j k).
Qed.

(** The index read backwards: latest first, each stored record once. *)
Lemma timestamp_index_reversed m :
  let l := reverse (timestamp_index stamp m) in
  StronglySorted (fun a b => stamp b.2 <= stamp a.2) l /\
  l ≡ₚ map_to_list m /\
  NoDup l.*1.
Proof.
  intros l. subst l. unfold timestamp_index.
  assert (Hperm : reverse (merge_sort (stamp_le stamp) (map_to_list m))
                  ≡ₚ map_to_list m)
    by (by rewrite reverse_Permutation, merge_sort_Permutation).
  split; [|split; [done|]].
  - eapply StronglySorted_weaken;
      [|apply StronglySorted_reverse_flip,
          (StronglySorted_merge_sort (stamp_le stamp))].
    intros a b. unfold flip, stamp_le. lia.
  - rewrite Hperm. apply NoDup_fst_map_to_list.
Qed.

(** Deleting the records a cursor visits. *)
Lemma sweep_lookup {K} `{Countable K} (m : gmap K V) (l : list (K * V)) (k : K) :
  foldl (fun acc s => delete s.1 acc) m l !! k =
    if decide (k ∈ l.*1) then None else m !! k.
Proof.
  revert m. induction l as [|[k' v] l IH]; intros m; cbn.
  - rewrite decide_False by apply not_elem_of_nil. done.
  - rewrite IH. destruct (decide (k = k')) as [->|Hne].
    + rewrite lookup_delete_eq.
      rewrite (decide_True (P := k' ∈ k' :: l.*1))
        by (apply elem_of_cons; by left).
      by case_decide.
    + rewrite lookup_delete_ne by done.
      destruct (decide (k ∈ l.*1)) as [Hin|Hnin].
      * by rewrite decide_True by (apply elem_of_cons; by right).
      * rewrite decide_False; [done|].
        by intros [?|?]%elem_of_cons.
Qed.
End StampIndex.

Section HistoryExtras.
Import DatabaseManager Library.

(** X20: the play history is keyed by the id of the track. A track whose
    id is not in the history is recorded under it, with the time of
    play, and nothing else changes. A track whose id is in the history is
    not recorded: the request fails with a [ConstraintError] and the
    history is left as it was. So once a track was played, playing a
    track with that id again, from whatever source, adds nothing. *)
Theorem addToHistory_once (lib : Library.t) (track : Track) (now : Z) :
  let r := addToHistory lib track now in
  (history lib !! track_id track = None ->
     r.1 = Fulfilled (track_id track) /\
     history r.2 !! track_id track
       = Some (mkHistory track (likeId track) now) /\
     (forall k, k <> track_id track -> history r.2 !! k = history lib !! k)) /\
  (is_Some (history lib !! track_id track) ->
     r = (Rejected (Some ConstraintError), lib)) /\
  (forall again now', track_id again = track_id track ->
     addToHistory r.2 again now' = (Rejected (Some ConstraintError), r.2)) /\
  liked r.2 = liked lib.
Proof.
  intros r. subst r. unfold addToHistory.
  destruct (history lib !! track_id track) as [old|] eqn:Hl; cbn [fst snd].
  - repeat apply conj; try done.
    intros again now' ->. by rewrite Hl.
  - repeat apply conj; try done.
    + intros _. cbn [history set_history].
      split; [done|]. split; [apply lookup_insert_eq|].
      intros k Hk. by rewrite lookup_insert_ne.
    + intros again now' ->. cbn [history set_history].
      by rewrite lookup_insert_eq.
Qed.

Lemma slice0_sublist {A} (l : list A) (n : Z) : JSArray.slice0 l n `sublist_of` l.
Proof. unfold JSArray.slice0. apply sublist_take. Qed.

(** X21: [getPlayHistory] and [getLikedSongs] list stored records, the
    latest first and each once: the liked tracks all of them, the history
    up to [limit] (50 when left out) of them, none of those left out
    being later than one that is listed. *)
Theorem recent_first (lib : Library.t) (limit : option Z) :
  (exists l, getLikedSongs lib = Fulfilled l /\
     StronglySorted (fun a b => lk_timestamp b.2 <= lk_timestamp a.2) l /\
     l ≡ₚ map_to_list (liked lib)) /\
  (exists l, getPlayHistory lib limit = Fulfilled l /\
     StronglySorted (fun a b => h_timestamp b.2 <= h_timestamp a.2) l /\
     (forall s, s ∈ l -> history lib !! s.1 = Some s.2) /\
     NoDup l.*1 /\
     (0 <= default 50 limit ->
        length l = Nat.min (Z.to_nat (default 50 limit)) (stdpp.base.size (history lib)) /\
        forall s s', s ∈ l -> history lib !! s'.1 = Some s'.2 -> s' ∉ l ->
          h_timestamp s'.2 <= h_timestamp s.2)).
Proof.
  split.
  - eexists. split; [reflexivity|].
    destruct (timestamp_index_reversed lk_timestamp (liked lib))
      as (Hs & Hp & _). by split.
  - eexists. split; [reflexivity|].
    destruct (timestamp_index_reversed h_timestamp (history lib))
      as (Hs & Hp & Hn).
    set (L := reverse (timestamp_index h_timestamp (history lib))) in *.
    cbv zeta in Hs, Hp, Hn.
    pose proof (slice0_sublist L (default 50 limit)) as Hsub.
    split; [by eapply StronglySorted_sublist|].
    split.
    { intros s Hin. apply elem_of_map_to_list'. rewrite <- Hp.
      by eapply elem_of_sublist. }
    split.
    { eapply sublist_NoDup; [exact Hn|]. by apply fmap_sublist. }
    intros Hlim. rewrite slice0_take by done. split.
    { rewrite length_take, <- (length_map_to_list (history lib)), <- Hp.
      done. }
    intros s s' Hs1 Hs' Hnot.
    assert (Hin' : s' ∈ drop (Z.to_nat (default 50 limit)) L).
    { apply elem_of_map_to_list' in Hs'. rewrite <- Hp in Hs'.
      rewrite <- (take_drop (Z.to_nat (default 50 limit)) L) in Hs'.
      apply elem_of_app in Hs' as [?|?]; done. }
    rewrite <- (take_drop (Z.to_nat (default 50 limit)) L) in Hs.
    by apply (StronglySorted_app_1_elem_of _ _ _ _ _ Hs).
Qed.

Lemma map_filter_by_lookup {K} `{Countable K} {V}
    (P : K * V -> Prop) `{!forall x, Decision (P x)} (m m' : gmap K V) :
  (forall k, m' !! k = match m !! k with
                       | Some v => if decide (P (k, v)) then Some v else None
                       | None => None
                       end) ->
  m' = filter P m.
Proof.
  intros Hm. apply map_eq. intros k. rewrite Hm, map_lookup_filter.
  destruct (m !! k) as [v|]; cbn; [|done].
  case_decide; [by rewrite option_guard_True|by rewrite option_guard_False].
Qed.

#[local] Existing Instance index_le_total.
#[local] Existing Instance index_le_trans.

(** X22: once the transaction of [cleanup] has completed, the search
    history and the play history hold the records written less than 30
    days before, and nothing else has changed; a record written exactly
    30 days before is deleted. *)
Theorem cleanup_retention (db : DatabaseManager.t) (lib : Library.t) (now : Z) :
  let r := cleanup db lib now in
  searchHistory r.1
    = filter (fun s => now - retention < timestamp s.2) (searchHistory db) /\
  history r.2
    = filter (fun s => now - retention < h_timestamp s.2) (history lib) /\
  searchHistoryNext r.1 = searchHistoryNext db /\
  playlists r.1 = playlists db /\ playlistsNext r.1 = playlistsNext db /\
  offlineTracks r.1 = offlineTracks db /\ downloads r.1 = downloads db /\
  liked r.2 = liked lib.
Proof.
  intros r. subst r. unfold cleanup. cbn.
  repeat apply conj; try reflexivity.
  - apply map_filter_by_lookup. intros k.
    unfold sweep_search. rewrite sweep_lookup.
    destruct (searchHistory db !! k) as [e|] eqn:He.
    + cbv beta. cbn [snd].
      destruct (decide (now - retention < timestamp e)) as [Hk|Hk].
      * rewrite decide_False; [done|].
        intros ([k' e'] & -> & [Hle Hin]%list_elem_of_filter)%list_elem_of_fmap.
        rewrite merge_sort_Permutation in Hin.
        apply elem_of_map_to_list in Hin. cbn in *. simplify_eq. lia.
      * rewrite decide_True; [done|].
        apply list_elem_of_fmap. exists (k, e). split; [done|].
        apply list_elem_of_filter. split; [cbn; lia|].
        rewrite merge_sort_Permutation. by apply elem_of_map_to_list.
    + by case_decide.
  - apply map_filter_by_lookup. intros k.
    unfold sweep_history. rewrite sweep_lookup.
    destruct (history lib !! k) as [e|] eqn:He.
    + cbv beta. cbn [snd].
      destruct (decide (now - retention < h_timestamp e)) as [Hk|Hk].
      * rewrite decide_False; [done|].
        intros ([k' e'] & -> & [Hle Hin]%list_elem_of_filter)%list_elem_of_fmap.
        unfold timestamp_index in Hin.
        rewrite merge_sort_Permutation in Hin.
        apply elem_of_map_to_list in Hin. cbn in *. simplify_eq. lia.
      * rewrite decide_True; [done|].
        apply list_elem_of_fmap. exists (k, e). split; [done|].
        apply list_elem_of_filter. split; [cbn; lia|].
        unfold timestamp_index.
        rewrite merge_sort_Permutation. by apply elem_of_map_to_list.
    + by case_decide.
Qed.

(** The index after a search later than all stored ones. *)
Lemma index_getAll_add (db : DatabaseManager.t) (q : string) (now : Z) :
  search_history_before db now ->
  addToSearchHistory db q now
    = (Fulfilled (searchHistoryNext db),
       set_searchHistory db
         (<[searchHistoryNext db := mkSearch q now]> (searchHistory db))
         (searchHistoryNext db + 1)) /\
  index_getAll (addToSearchHistory db q now).2
    = index_getAll db ++ [(searchHistoryNext db, mkSearch q now)].
Proof.
  intros Hinv.
  assert (Hfresh : searchHistory db !! searchHistoryNext db = None).
  { destruct (searchHistory db !! searchHistoryNext db) as [e|] eqn:He; [|done].
    apply Hinv in He. lia. }
  unfold addToSearchHistory. rewrite Hfresh. split; [done|].
  unfold index_getAll. cbn [snd searchHistory set_searchHistory].
  apply (StronglySorted_unique_strong index_le).
  - intros [i a] [j b] Hi Hj Hij Hji.
    assert (i = j) as -> by (unfold index_le in *; cbn in *; lia).
    rewrite merge_sort_Permutation in Hi.
    apply elem_of_map_to_list in Hi.
    apply elem_of_app in Hj as [Hj|Hj%list_elem_of_singleton].
    + rewrite merge_sort_Permutation in Hj. apply elem_of_map_to_list in Hj.
      destruct (decide (j = searchHistoryNext db)) as [->|Hne];
        [congruence|].
      rewrite lookup_insert_ne in Hi by done. congruence.
    + injection Hj as -> ->. rewrite lookup_insert_eq in Hi. congruence.
  - apply (StronglySorted_merge_sort index_le).
  - apply StronglySorted_app_2.
    + intros [i a] x2 Hi ->%list_elem_of_singleton.
      rewrite merge_sort_Permutation in Hi. apply elem_of_map_to_list in Hi.
      apply Hinv in Hi. unfold index_le. cbn. lia.
    + apply (StronglySorted_merge_sort index_le).
    + repeat constructor.
  - rewrite !merge_sort_Permutation, map_to_list_insert by done.
    by rewrite (Permutation_app_comm _ [_]).
Qed.

(** X23: a search made no earlier than the stored ones is stored, and
    the search history then begins with it and lists that query only
    once. The store is again one whose entries are no later than any
    later time. *)
Theorem latest_search_first (db : DatabaseManager.t) (q : string) (now : Z)
    (limit : option Z) :
  search_history_before db now -> 1 <= default 10 limit ->
  let added := addToSearchHistory db q now in
  exists rest,
    added.1 = Fulfilled (searchHistoryNext db) /\
    getSearchHistory added.2 limit
      = Fulfilled ((searchHistoryNext db, mkSearch q now) :: rest) /\
    (forall s, s ∈ rest -> query s.2 <> q) /\
    (forall now', now <= now' -> search_history_before added.2 now').
Proof.
  intros Hinv Hlim added. subst added.
  destruct (index_getAll_add db q now Hinv) as [Hadd Hidx].
  unfold getSearchHistory. rewrite Hidx, uniqueSearches_keep_first.
  rewrite reverse_snoc. cbn [keep_first query snd].
  rewrite decide_False by apply not_elem_of_empty.
  rewrite slice0_take by lia.
  replace (Z.to_nat (default 10 limit))
    with (S (Z.to_nat (default 10 limit) - 1)) by lia.
  cbn [take]. eexists. split; [by rewrite Hadd|]. split; [reflexivity|].
  split.
  - intros s Hin Hq.
    pose proof (elem_of_sublist _ _ _ Hin (sublist_take _ _)) as Hin'.
    apply keep_first_unseen in Hin'. apply Hin'. rewrite Hq. apply elem_of_union_l, elem_of_singleton. done.
  - intros now' Hnow' id e. rewrite Hadd. cbn.
    destruct (decide (id = searchHistoryNext db)) as [->|Hne].
    + rewrite lookup_insert_eq. intros [= <-]. cbn. lia.
    + rewrite lookup_insert_ne by done. intros He%Hinv. lia.
Qed.
End HistoryExtras.

Lemma latest_search_first_witness :
  exists rest,
    DatabaseManager.getSearchHistory
      (DatabaseManager.addToSearchHistory (Sample.searched 10 20 30 40)
         "b" 50).2 None
    = DatabaseManager.Fulfilled ((5, DatabaseManager.mkSearch "b" 50) :: rest).
Proof.
  destruct (latest_search_first (Sample.searched 10 20 30 40) "b" 50 None)
    as (rest & _ & Hget & _).
  - intros id e. vm_compute.
    intros He. repeat (destruct id as [|[id|id|]|]; try discriminate He);
      injection He as <-; done.
  - vm_compute. discriminate.
  - exists rest. exact Hget.
Defined.

Section HistoryRemovalExtras.
Import DatabaseManager Library.

(** X24: [removeFromSearchHistory] deletes the entry under the id and
    no other, and the search history read afterwards lists entries that
    were stored before, none of them under that id. *)
Theorem removed_search_not_listed (db : DatabaseManager.t) (id : Z)
    (limit : option Z) :
  let r := removeFromSearchHistory db id in
  r.1 = Fulfilled () /\
  searchHistory r.2 = delete id (searchHistory db) /\
  searchHistoryNext r.2 = searchHistoryNext db /\
  exists l, getSearchHistory r.2 limit = Fulfilled l /\
    (forall s, s ∈ l -> s.1 <> id /\ searchHistory db !! s.1 = Some s.2).
Proof.
  intros r. subst r. unfold removeFromSearchHistory. cbn [fst snd].
  repeat apply conj; try reflexivity.
  eexists. split; [reflexivity|]. intros s Hin.
  set (db' := set_searchHistory db _ _) in *.
  assert (Hin' : s ∈ reverse (index_getAll db')).
  { eapply elem_of_sublist; [exact Hin|].
    etrans; [apply slice0_sublist|].
    rewrite uniqueSearches_keep_first. apply keep_first_sublist. }
  apply (index_reversed db') in Hin'. subst db'. cbn in Hin'.
  apply lookup_delete_Some in Hin' as [Hne Hs]. by split.
Qed.

(** The query of a removed entry is still listed when an older entry
    has it: here the later of two searches for "a" is removed. *)
Example removed_search_older_entry_listed :
  getSearchHistory
    (removeFromSearchHistory (Sample.searched 10 20 30 40) 3).2 None
  = Fulfilled [(4, mkSearch "c" 40); (2, mkSearch "b" 20); (1, mkSearch "a" 10)].
Proof. vm_compute. reflexivity. Qed.

(** X25: [clearHistory] empties the play history and leaves the liked
    tracks alone; afterwards any track is recorded again, also one that
    had been played before. *)
Theorem clearHistory_allows_replay (lib : Library.t) (limit : option Z)
    (track : Track) (now : Z) :
  let r := clearHistory lib in
  r.1 = Fulfilled () /\
  liked r.2 = liked lib /\
  getPlayHistory r.2 limit = Fulfilled [] /\
  addToHistory r.2 track now
  = (Fulfilled (track_id track),
     Library.mk (liked lib)
       {[ track_id track := mkHistory track (likeId track) now ]}).
Proof.
  intros r. subst r. unfold clearHistory. cbn [fst snd].
  repeat apply conj; try reflexivity.
  unfold getPlayHistory, timestamp_index. cbn [history set_history].
  rewrite map_to_list_empty. unfold JSArray.slice0.
  change (reverse (merge_sort (stamp_le h_timestamp) []))
    with (@nil (string * HistoryEntry)).
  by rewrite take_nil.
Qed.
End HistoryRemovalExtras.
